(** * Validator-key derivation of pokerchain ([genvalidatorkey.py])

    A shallow embedding of the BIP39 mnemonic codec ([BIP39]) and of the
    Tendermint/CometBFT key builder ([ValidatorKey]), together with the
    pieces of the Python runtime and of the cryptographic libraries they
    call, followed by the properties of the derivation pipeline.

    Layout: part I is the model (Python values and builtins, [hashlib],
    ed25519, the two signature back ends, the two classes of the script
    and its [main], then the address helpers of [generate_test_actors.py]);
    part II holds the lemmas and the theorems on the derivation pipeline;
    part III holds further properties of the same code. *)

From Stdlib Require Import ZArith NArith List Bool Lia Strings.Byte String Ascii Uint63.
From Bignums Require Import BigZ.
Import ListNotations.

Local Open Scope Z_scope.

(* ===================================================================== *)
(** * Part I.  The model                                                  *)
(* ===================================================================== *)

(** ** Python values *)

Module Py.

(** The exceptions the script can meet. *)
Inductive exn : Set :=
| ValueError
| KeyError
| IndexError
| OverflowError
| UnicodeEncodeError.

(** A call either returns or raises. *)
Inductive result (A : Type) : Type :=
| Ok (a : A)
| Raise (e : exn).
Arguments Ok {A} a.
Arguments Raise {A} e.

Definition bind {A B : Type} (r : result A) (k : A -> result B) : result B :=
  match r with
  | Ok a => k a
  | Raise e => Raise e
  end.

(** A list comprehension whose element expression may raise: the first
    exception aborts the whole comprehension. *)
Fixpoint traverse {A B : Type} (f : A -> result B) (l : list A) : result (list B) :=
  match l with
  | [] => Ok []
  | x :: l' =>
      bind (f x) (fun y => bind (traverse f l') (fun ys => Ok (y :: ys)))
  end.

(** [str] is a sequence of Unicode code points, [bytes] a sequence of
    octets. *)
Definition str : Set := list N.
Definition bytes : Set := list byte.

(** A literal of the script, written as a Rocq string (ASCII only). *)
Definition lit (s : string) : str :=
  List.map (fun a => N_of_ascii a) (list_ascii_of_string s).

Fixpoint str_eqb (a b : str) : bool :=
  match a, b with
  | [], [] => true
  | x :: a', y :: b' => (x =? y)%N && str_eqb a' b'
  | _, _ => false
  end.

Definition byte_val (b : byte) : Z := Z.of_N (Byte.to_N b).

(** The octet of a number, reduced modulo 256. *)
Definition byte_of_N (n : N) : byte :=
  match Byte.of_N (n mod 256)%N with
  | Some b => b
  | None => x00
  end.

Definition byte_of_Z (z : Z) : byte := byte_of_N (Z.to_N (z mod 256)).

(** [len(x)] *)
Definition len {A : Type} (l : list A) : Z := Z.of_nat (List.length l).

(** *** Whitespace, [str.strip], [str.split], [str.join] *)

(** [str.isspace] on one code point (CPython's [_PyUnicode_IsWhitespace]). *)
Definition isspace (c : N) : bool :=
  ((9 <=? c) && (c <=? 13) || (28 <=? c) && (c <=? 32)
   || (c =? 133) || (c =? 160) || (c =? 5760)
   || (8192 <=? c) && (c <=? 8202)
   || (c =? 8232) || (c =? 8233) || (c =? 8239) || (c =? 8287)
   || (c =? 12288))%N.

Fixpoint lstrip (s : str) : str :=
  match s with
  | [] => []
  | c :: s' => if isspace c then lstrip s' else s
  end.

Definition rstrip (s : str) : str := rev (lstrip (rev s)).

(** [s.strip()] *)
Definition strip (s : str) : str := rstrip (lstrip s).

(** [s.split()]: one left-to-right scan; [cur] is the token being read,
    most recent character first.  A whitespace character closes the
    current token, and empty tokens are never produced. *)
Fixpoint split_scan (cur : str) (s : str) : list str :=
  match s with
  | [] => match cur with [] => [] | _ => [rev cur] end
  | c :: s' =>
      if isspace c
      then match cur with
           | [] => split_scan [] s'
           | _ => rev cur :: split_scan [] s'
           end
      else split_scan (c :: cur) s'
  end.

Definition split (s : str) : list str := split_scan [] s.

(** [sep.join(parts)] *)
Fixpoint join (sep : str) (parts : list str) : str :=
  match parts with
  | [] => []
  | [p] => p
  | p :: rest => p ++ sep ++ join sep rest
  end.

(** *** [str.encode('utf-8')] *)

Definition utf8_char (c : N) : result bytes :=
  (if c <? 128 then Ok [byte_of_N c]
   else if c <? 2048 then
     Ok [byte_of_N (192 + c / 64); byte_of_N (128 + c mod 64)]
   else if (55296 <=? c) && (c <=? 57343) then Raise UnicodeEncodeError
   else if c <? 65536 then
     Ok [byte_of_N (224 + c / 4096); byte_of_N (128 + (c / 64) mod 64);
         byte_of_N (128 + c mod 64)]
   else if c <? 1114112 then
     Ok [byte_of_N (240 + c / 262144); byte_of_N (128 + (c / 4096) mod 64);
         byte_of_N (128 + (c / 64) mod 64); byte_of_N (128 + c mod 64)]
   else Raise UnicodeEncodeError)%N.

Definition encode_utf8 (s : str) : result bytes :=
  bind (traverse utf8_char s) (fun chunks => Ok (List.concat chunks)).

(** [bytes.decode('ascii')] applied to ASCII octets. *)
Definition decode_ascii (b : bytes) : str := List.map Byte.to_N b.

(** *** Integers and their textual forms *)

(** [int.from_bytes(b, 'big')] *)
Definition int_from_bytes_big (b : bytes) : Z :=
  fold_left (fun acc x => acc * 256 + byte_val x) b 0.

(** [int.from_bytes(b, 'little')] *)
Definition int_from_bytes_little (b : bytes) : Z :=
  fold_right (fun x acc => byte_val x + 256 * acc) 0 b.

Fixpoint be_bytes (n : nat) (z : Z) : bytes :=
  match n with
  | O => []
  | S n' => be_bytes n' (z / 256) ++ [byte_of_Z z]
  end.

Fixpoint le_bytes (n : nat) (z : Z) : bytes :=
  match n with
  | O => []
  | S n' => byte_of_Z z :: le_bytes n' (z / 256)
  end.

(** [z.to_bytes(length, 'big')] *)
Definition int_to_bytes_big (z : Z) (length : Z) : result bytes :=
  if length <? 0 then Raise ValueError
  else if (z <? 0) || (256 ^ length <=? z) then Raise OverflowError
  else Ok (be_bytes (Z.to_nat length) z).

(** [int.to_bytes(z, length, 'little')] *)
Definition int_to_bytes_little (z : Z) (length : Z) : result bytes :=
  if length <? 0 then Raise ValueError
  else if (z <? 0) || (256 ^ length <=? z) then Raise OverflowError
  else Ok (le_bytes (Z.to_nat length) z).

Definition chr0 : N := 48.
Definition chr1 : N := 49.

(** Binary digits of a positive number, most significant first, in front
    of [acc]. *)
Fixpoint pos_digits (p : positive) (acc : str) : str :=
  match p with
  | xH => chr1 :: acc
  | xO p' => pos_digits p' (chr0 :: acc)
  | xI p' => pos_digits p' (chr1 :: acc)
  end.

(** [bin(z)] *)
Definition bin (z : Z) : str :=
  match z with
  | Z0 => lit "0b0"
  | Zpos p => lit "0b" ++ pos_digits p []
  | Zneg p => lit "-0b" ++ pos_digits p []
  end.

(** [s.zfill(width)]: zeros go after a leading sign. *)
Definition zfill (s : str) (width : Z) : str :=
  let pad := List.repeat chr0 (Z.to_nat (width - len s)) in
  match s with
  | c :: rest =>
      if ((c =? 43) || (c =? 45))%N then c :: pad ++ rest else pad ++ s
  | [] => pad
  end.

(** Value of a run of binary digits following the value [acc]. *)
Fixpoint digits_value (acc : Z) (s : str) : result Z :=
  match s with
  | [] => Ok acc
  | c :: s' =>
      if (c =? chr0)%N then digits_value (2 * acc) s'
      else if (c =? chr1)%N then digits_value (2 * acc + 1) s'
      else Raise ValueError
  end.

(** [int(s, 2)] on a plain run of binary digits.  The script only ever
    passes slices of strings produced by [bin] and [zfill]; the other
    spellings that [int] accepts (sign, [0b] prefix, underscores,
    surrounding blanks) are outside this model and are reported as
    [ValueError]. *)
Definition int_base2 (s : str) : result Z :=
  match s with
  | [] => Raise ValueError
  | _ => digits_value 0 s
  end.

(** *** Slices, indexing, [range] *)

(** A slice bound as Python normalises it: negative bounds count from the
    end, and the result is clipped to [0 .. len]. *)
Definition clip_index (n : Z) (i : Z) : nat :=
  let j := if i <? 0 then i + n else i in
  Z.to_nat (Z.max 0 (Z.min n j)).

(** [s[start:stop]]; [None] is an omitted bound. *)
Definition slice {A : Type} (s : list A) (start stop : option Z) : list A :=
  let n := len s in
  let a := match start with Some i => clip_index n i | None => O end in
  let b := match stop with Some j => clip_index n j | None => List.length s end in
  firstn (b - a) (skipn a s).

(** [l[i]] *)
Definition getitem {A : Type} (l : list A) (i : Z) : result A :=
  let j := if i <? 0 then i + len l else i in
  if j <? 0 then Raise IndexError
  else match nth_error l (Z.to_nat j) with
       | Some x => Ok x
       | None => Raise IndexError
       end.

(** [range(start, stop, step)] for a positive step, [count] values at most. *)
Fixpoint range_from (count : nat) (start stop step : Z) : list Z :=
  match count with
  | O => []
  | S count' =>
      if start <? stop then start :: range_from count' (start + step) stop step
      else []
  end.

Definition range (start stop step : Z) : list Z :=
  range_from (Z.to_nat (stop - start)) start stop step.

(** *** Dictionaries keyed by strings *)

(** Insertion-ordered association list; a repeated key keeps its place and
    takes the new value. *)
Definition dict (V : Type) : Type := list (str * V).

Fixpoint dict_set {V : Type} (d : dict V) (k : str) (v : V) : dict V :=
  match d with
  | [] => [(k, v)]
  | (k', v') :: d' =>
      if str_eqb k' k then (k', v) :: d' else (k', v') :: dict_set d' k v
  end.

(** [d[k]] *)
Fixpoint dict_get {V : Type} (d : dict V) (k : str) : result V :=
  match d with
  | [] => Raise KeyError
  | (k', v') :: d' => if str_eqb k' k then Ok v' else dict_get d' k
  end.

(** [enumerate(l)] *)
Definition enumerate {A : Type} (l : list A) : list (Z * A) :=
  combine (List.map Z.of_nat (seq 0 (List.length l))) l.

(** *** [bytes.hex], [str.upper], [base64.b64encode] *)

Definition hex_digit (n : N) : N :=
  (if n <? 10 then 48 + n else 87 + n)%N.

(** [b.hex()], lower-case digits. *)
Definition hex (b : bytes) : str :=
  flat_map (fun x => let n := Byte.to_N x in
                     [hex_digit (n / 16)%N; hex_digit (n mod 16)%N]) b.

(** [s.upper()] on ASCII text: only [a]..[z] change.  (The script applies
    it to the output of [hex] alone.) *)
Definition upper_char (c : N) : N :=
  (if (97 <=? c) && (c <=? 122) then c - 32 else c)%N.
Definition upper (s : str) : str := List.map upper_char s.

(** The standard base64 alphabet. *)
Definition b64_char (n : N) : byte :=
  byte_of_N (if n <? 26 then 65 + n
             else if n <? 52 then 71 + n
             else if n <? 62 then n - 4
             else if n =? 62 then 43 else 47)%N.

Definition b64_pad : byte := byte_of_N 61.

(** [base64.b64encode(b)]: three octets give four characters; a tail of
    one or two octets is padded with [=]. *)
Fixpoint b64encode (b : bytes) : bytes :=
  match b with
  | [] => []
  | [x] =>
      let n := (Byte.to_N x * 16)%N in
      [b64_char (n / 64); b64_char (n mod 64); b64_pad; b64_pad]
  | [x; y] =>
      let n := ((Byte.to_N x * 256 + Byte.to_N y) * 4)%N in
      [b64_char (n / 4096); b64_char ((n / 64) mod 64); b64_char (n mod 64);
       b64_pad]
  | x :: y :: z :: rest =>
      let n := ((Byte.to_N x * 256 + Byte.to_N y) * 256 + Byte.to_N z)%N in
      b64_char (n / 262144) :: b64_char ((n / 4096) mod 64)
        :: b64_char ((n / 64) mod 64) :: b64_char (n mod 64)
        :: b64encode rest
  end.

End Py.

Export Py.

Declare Scope py_scope.
Notation "x <- e ;; k" := (Py.bind e (fun x => k))
  (at level 61, e at next level, right associativity) : py_scope.
Open Scope py_scope.

(** ** Lists cut into pieces *)

Fixpoint chunks_fuel {A : Type} (fuel n : nat) (l : list A) : list (list A) :=
  match fuel with
  | O => []
  | S fuel' =>
      match l with
      | [] => []
      | _ => firstn n l :: chunks_fuel fuel' n (skipn n l)
      end
  end.

(** Consecutive pieces of [n] elements; the last one may be shorter. *)
Definition chunks {A : Type} (n : nat) (l : list A) : list (list A) :=
  chunks_fuel (List.length l) n l.

(** ** [hashlib]: SHA-256, SHA-512, HMAC and PBKDF2

    The digests follow FIPS 180-4, computed on machine integers: a 32-bit
    word is one integer kept below [2^32], a 64-bit word is a pair of such
    halves.  The round constants are derived from the primes as the
    standard defines them. *)

Module Hash.

Fixpoint no_divisor (ds : list Z) (n : Z) : bool :=
  match ds with
  | [] => true
  | d :: ds' => if n mod d =? 0 then false else no_divisor ds' n
  end.

Fixpoint primes_from (fuel : nat) (n : Z) (count : nat) (found : list Z) : list Z :=
  match fuel, count with
  | O, _ => rev found
  | _, O => rev found
  | S fuel', S count' =>
      if no_divisor found n
      then primes_from fuel' (n + 1) count' (n :: found)
      else primes_from fuel' (n + 1) count found
  end.

(** The first [k] primes ([k] at most 80). *)
Definition first_primes (k : nat) : list Z := primes_from 500 2 k [].

(** Integer cube root, one bit at a time from bit [bits - 1] down. *)
Fixpoint cbrt_bits (bits : nat) (n r : Z) : Z :=
  match bits with
  | O => r
  | S b =>
      let c := Z.lor r (Z.shiftl 1 (Z.of_nat b)) in
      if c * c * c <=? n then cbrt_bits b n c else cbrt_bits b n r
  end.

(** The first [w] bits of the fractional part of the square root and of
    the cube root of [p]. *)
Definition frac_sqrt (w : Z) (p : Z) : Z := Z.sqrt (p * 2 ^ (2 * w)) mod 2 ^ w.
Definition frac_cbrt (w : Z) (p : Z) : Z :=
  cbrt_bits (Z.to_nat w + 8) (p * 2 ^ (3 * w)) 0 mod 2 ^ w.

Local Open Scope uint63_scope.

Definition int_of_byte (b : byte) : int := Uint63.of_Z (byte_val b).

Definition bit_at (i k : int) : bool := ((i >> k) land 1) =? 1.

Definition byte_of_int (i : int) : byte :=
  Byte.of_bits
    (bit_at i 0, (bit_at i 1, (bit_at i 2, (bit_at i 3,
    (bit_at i 4, (bit_at i 5, (bit_at i 6, bit_at i 7))))))).

Definition mask32 : int := 0xFFFFFFFF.

(** A big-endian 32-bit word. *)
Definition word32_of_bytes (b : bytes) : int :=
  fold_left (fun acc x => (acc << 8) lor int_of_byte x) b 0.

Definition bytes_of_word32 (w : int) : bytes :=
  [byte_of_int (w >> 24); byte_of_int (w >> 16); byte_of_int (w >> 8);
   byte_of_int w].

Definition xor_byte (a b : byte) : byte :=
  byte_of_N (N.lxor (Byte.to_N a) (Byte.to_N b)).

Definition xor_bytes (a b : bytes) : bytes :=
  List.map (fun ab => xor_byte (fst ab) (snd ab)) (combine a b).

Module SHA256.

Definition add (x y : int) : int := (x + y) land mask32.
Definition rotr (n x : int) : int := ((x >> n) lor (x << (32 - n))) land mask32.
Definition shr (n x : int) : int := x >> n.
Definition Ch (x y z : int) : int := (x land y) lxor ((x lxor mask32) land z).
Definition Maj (x y z : int) : int :=
  (x land y) lxor (x land z) lxor (y land z).
Definition Sigma0 (x : int) : int := rotr 2 x lxor rotr 13 x lxor rotr 22 x.
Definition Sigma1 (x : int) : int := rotr 6 x lxor rotr 11 x lxor rotr 25 x.
Definition sigma0 (x : int) : int := rotr 7 x lxor rotr 18 x lxor shr 3 x.
Definition sigma1 (x : int) : int := rotr 17 x lxor rotr 19 x lxor shr 10 x.

Definition K : list int :=
  Eval vm_compute in
    List.map (fun p => Uint63.of_Z (frac_cbrt 32 p)) (first_primes 64).

Record state : Set :=
  State { sa : int; sb : int; sc : int; sd : int;
          se : int; sf : int; sg : int; sh : int }.

Definition H0 : state :=
  Eval vm_compute in
    match List.map (fun p => Uint63.of_Z (frac_sqrt 32 p)) (first_primes 8) with
    | [a; b; c; d; e; f; g; h] => State a b c d e f g h
    | _ => State 0 0 0 0 0 0 0 0
    end.

(** The message schedule, latest word first: [rw] holds W(t-1), W(t-2), ... *)
Fixpoint schedule (n : nat) (rw : list int) : list int :=
  match n with
  | O => rw
  | S n' =>
      let w := add (add (add (sigma1 (nth 1 rw 0)) (nth 6 rw 0))
                        (sigma0 (nth 14 rw 0))) (nth 15 rw 0) in
      schedule n' (w :: rw)
  end.

Definition round (s : state) (kw : int * int) : state :=
  let t1 := add (add (add (add (sh s) (Sigma1 (se s))) (Ch (se s) (sf s) (sg s)))
                     (fst kw)) (snd kw) in
  let t2 := add (Sigma0 (sa s)) (Maj (sa s) (sb s) (sc s)) in
  State (add t1 t2) (sa s) (sb s) (sc s) (add (sd s) t1) (se s) (sf s) (sg s).

(** One 64-octet block. *)
Definition compress (s : state) (block : bytes) : state :=
  let m := List.map word32_of_bytes (chunks 4 block) in
  let w := rev (schedule 48 (rev m)) in
  let r := fold_left round (combine K w) s in
  State (add (sa s) (sa r)) (add (sb s) (sb r)) (add (sc s) (sc r))
        (add (sd s) (sd r)) (add (se s) (se r)) (add (sf s) (sf r))
        (add (sg s) (sg r)) (add (sh s) (sh r)).

(** Padding of a message of [n] octets: 0x80, zeros up to 56 modulo 64,
    then the bit length on 8 octets. *)
Definition padding (n : nat) : bytes :=
  x80 :: List.repeat x00 ((119 - n mod 64) mod 64)
      ++ be_bytes 8 (Z.of_nat n * 8).

Definition digest (s : state) : bytes :=
  List.concat (List.map bytes_of_word32
    [sa s; sb s; sc s; sd s; se s; sf s; sg s; sh s]).

Definition sha256 (msg : bytes) : bytes :=
  digest (fold_left compress
            (chunks 64 (msg ++ padding (List.length msg))) H0).

End SHA256.

Module SHA512.

(** A 64-bit word as its two 32-bit halves. *)
Record word : Set := W { hi : int; lo : int }.

Definition zero : word := W 0 0.

Definition add (x y : word) : word :=
  let l := lo x + lo y in
  W ((hi x + hi y + (l >> 32)) land mask32) (l land mask32).
Definition xor (x y : word) : word := W (hi x lxor hi y) (lo x lxor lo y).
Definition and (x y : word) : word := W (hi x land hi y) (lo x land lo y).
Definition not (x : word) : word := W (hi x lxor mask32) (lo x lxor mask32).
Definition swap (x : word) : word := W (lo x) (hi x).

(** Rotation and shift to the right by [0 < n < 32] places. *)
Definition rotr_low (n : int) (x : word) : word :=
  W (((hi x >> n) lor (lo x << (32 - n))) land mask32)
    (((lo x >> n) lor (hi x << (32 - n))) land mask32).
Definition shr (n : int) (x : word) : word :=
  W (hi x >> n) (((lo x >> n) lor (hi x << (32 - n))) land mask32).

(** Rotation to the right by [0 < n < 64] places. *)
Definition rotr (n : int) (x : word) : word :=
  if n <? 32 then rotr_low n x
  else if n =? 32 then swap x
  else rotr_low (n - 32) (swap x).

Definition Ch (x y z : word) : word := xor (and x y) (and (not x) z).
Definition Maj (x y z : word) : word :=
  xor (xor (and x y) (and x z)) (and y z).
Definition Sigma0 (x : word) : word := xor (xor (rotr 28 x) (rotr 34 x)) (rotr 39 x).
Definition Sigma1 (x : word) : word := xor (xor (rotr 14 x) (rotr 18 x)) (rotr 41 x).
Definition sigma0 (x : word) : word := xor (xor (rotr 1 x) (rotr 8 x)) (shr 7 x).
Definition sigma1 (x : word) : word := xor (xor (rotr 19 x) (rotr 61 x)) (shr 6 x).

Definition word_of_Z (z : Z) : word :=
  W (Uint63.of_Z (z / 2 ^ 32)) (Uint63.of_Z (z mod 2 ^ 32)).

Definition K : list word :=
  Eval vm_compute in
    List.map (fun p => word_of_Z (frac_cbrt 64 p)) (first_primes 80).

Record state : Set :=
  State { sa : word; sb : word; sc : word; sd : word;
          se : word; sf : word; sg : word; sh : word }.

Definition H0 : state :=
  Eval vm_compute in
    match List.map (fun p => word_of_Z (frac_sqrt 64 p)) (first_primes 8) with
    | [a; b; c; d; e; f; g; h] => State a b c d e f g h
    | _ => State zero zero zero zero zero zero zero zero
    end.

Definition word_of_bytes (b : bytes) : word :=
  W (word32_of_bytes (firstn 4 b)) (word32_of_bytes (skipn 4 b)).

Definition bytes_of_word (w : word) : bytes :=
  bytes_of_word32 (hi w) ++ bytes_of_word32 (lo w).

Fixpoint schedule (n : nat) (rw : list word) : list word :=
  match n with
  | O => rw
  | S n' =>
      let w := add (add (add (sigma1 (nth 1 rw zero)) (nth 6 rw zero))
                        (sigma0 (nth 14 rw zero))) (nth 15 rw zero) in
      schedule n' (w :: rw)
  end.

Definition round (s : state) (kw : word * word) : state :=
  let t1 := add (add (add (add (sh s) (Sigma1 (se s))) (Ch (se s) (sf s) (sg s)))
                     (fst kw)) (snd kw) in
  let t2 := add (Sigma0 (sa s)) (Maj (sa s) (sb s) (sc s)) in
  State (add t1 t2) (sa s) (sb s) (sc s) (add (sd s) t1) (se s) (sf s) (sg s).

(** One 128-octet block. *)
Definition compress (s : state) (block : bytes) : state :=
  let m := List.map word_of_bytes (chunks 8 block) in
  let w := rev (schedule 64 (rev m)) in
  let r := fold_left round (combine K w) s in
  State (add (sa s) (sa r)) (add (sb s) (sb r)) (add (sc s) (sc r))
        (add (sd s) (sd r)) (add (se s) (se r)) (add (sf s) (sf r))
        (add (sg s) (sg r)) (add (sh s) (sh r)).

(** Padding of a message of [n] octets: 0x80, zeros up to 112 modulo 128,
    then the bit length on 16 octets. *)
Definition padding (n : nat) : bytes :=
  x80 :: List.repeat x00 ((239 - n mod 128) mod 128)
      ++ be_bytes 16 (Z.of_nat n * 8).

Definition digest (s : state) : bytes :=
  List.concat (List.map bytes_of_word
    [sa s; sb s; sc s; sd s; se s; sf s; sg s; sh s]).

(** The digest of a message whose first [fed] octets (a whole number of
    blocks) have already been absorbed into [s] and whose remainder is
    [rest]: what [update] followed by [digest] computes on a copied
    context. *)
Definition finish (s : state) (fed : nat) (rest : bytes) : bytes :=
  digest (fold_left compress
            (chunks 128 (rest ++ padding (fed + List.length rest))) s).

Definition sha512 (msg : bytes) : bytes := finish H0 0 msg.

End SHA512.

Definition sha256 := SHA256.sha256.
Definition sha512 := SHA512.sha512.

(** *** HMAC (RFC 2104) with SHA-512, block size 128 *)

Definition hmac_key_block (key : bytes) : bytes :=
  let k := if (128 <? List.length key)%nat then sha512 key else key in
  k ++ List.repeat x00 (128 - List.length k).

Definition ipad (key : bytes) : bytes :=
  List.map (xor_byte x36) (hmac_key_block key).
Definition opad (key : bytes) : bytes :=
  List.map (xor_byte x5c) (hmac_key_block key).

Definition hmac_sha512 (key msg : bytes) : bytes :=
  sha512 (opad key ++ sha512 (ipad key ++ msg)).

(** *** PBKDF2 (RFC 8018, section 5.2) *)

(** [rounds] further applications of the pseudo-random function: [u] is
    the latest U value, [acc] the exclusive-or of all of them so far. *)
Fixpoint pbkdf2_rounds (prf : bytes -> bytes) (rounds : nat) (u acc : bytes) : bytes :=
  match rounds with
  | O => acc
  | S rounds' =>
      let u' := prf u in
      pbkdf2_rounds prf rounds' u' (xor_bytes acc u')
  end.

(** Block T_i = U_1 xor ... xor U_c. *)
Definition pbkdf2_block (prf : bytes -> bytes) (salt : bytes) (c : nat) (i : nat) : bytes :=
  let u1 := prf (salt ++ be_bytes 4 (Z.of_nat i)) in
  pbkdf2_rounds prf (c - 1) u1 u1.

Definition pbkdf2 (prf : bytes -> bytes) (hlen : nat) (salt : bytes)
    (c : nat) (dklen : nat) : bytes :=
  firstn dklen
    (flat_map (pbkdf2_block prf salt c) (seq 1 ((dklen + hlen - 1) / hlen))).

(** [hashlib.pbkdf2_hmac('sha512', password, salt, iterations)]; the
    derived key has the length of the digest, 64 octets, when [dklen] is
    not given. *)
Definition pbkdf2_hmac_sha512 (password salt : bytes) (iterations : Z) : bytes :=
  pbkdf2 (hmac_sha512 password) 64 salt (Z.to_nat iterations) 64.

(** The same computation with the two key blocks of HMAC absorbed once
    and for all, as hashlib does by copying the keyed contexts. *)
Definition hmac_sha512_keyed (inner outer : SHA512.state) (msg : bytes) : bytes :=
  SHA512.finish outer 128 (SHA512.finish inner 128 msg).

Definition pbkdf2_hmac_sha512_keyed (password salt : bytes) (iterations : Z) : bytes :=
  let inner := SHA512.compress SHA512.H0 (ipad password) in
  let outer := SHA512.compress SHA512.H0 (opad password) in
  pbkdf2 (hmac_sha512_keyed inner outer) 64 salt (Z.to_nat iterations) 64.

End Hash.

(** ** Ed25519 key generation (RFC 8032, section 5.1.5)

    Both signature libraries derive the public key of a 32-octet seed
    this way; the arithmetic follows the reference implementation of the
    RFC, on fast integers. *)

Module Ed25519.

Local Open Scope bigZ_scope.

(** The field prime 2^255 - 19, as a fast integer and as a plain one. *)
Definition p : bigZ := Eval vm_compute in 2 ^ 255 - 19.
Definition p_Z : Z := Eval vm_compute in BigZ.to_Z p.

(** [pow(x, e, m)] for a positive exponent, by squaring. *)
Fixpoint pow_mod_pos (x : bigZ) (e : positive) (m : bigZ) : bigZ :=
  match e with
  | xH => x mod m
  | xO e' => let r := pow_mod_pos x e' m in (r * r) mod m
  | xI e' => let r := pow_mod_pos x e' m in (((r * r) mod m) * x) mod m
  end.

Definition pow_mod (x : bigZ) (e : Z) (m : bigZ) : bigZ :=
  match e with
  | Zpos e' => pow_mod_pos x e' m
  | _ => 1 mod m
  end.

Definition modp_inv (x : bigZ) : bigZ := pow_mod x (p_Z - 2) p.

(** Curve constant d = -121665/121666 and a square root of -1. *)
Definition d : bigZ := Eval vm_compute in (-121665 * modp_inv 121666) mod p.
Definition modp_sqrt_m1 : bigZ := Eval vm_compute in pow_mod 2 ((p_Z - 1) / 4) p.

(** Points in extended homogeneous coordinates (X, Y, Z, T). *)
Record point : Set := Point { pX : bigZ; pY : bigZ; pZ : bigZ; pT : bigZ }.

Definition point_add (P Q : point) : point :=
  let A := ((pY P - pX P) * (pY Q - pX Q)) mod p in
  let B := ((pY P + pX P) * (pY Q + pX Q)) mod p in
  let C := (2 * pT P * pT Q * d) mod p in
  let D := (2 * pZ P * pZ Q) mod p in
  let E := B - A in
  let F := D - C in
  let G := D + C in
  let H := B + A in
  Point ((E * F) mod p) ((G * H) mod p) ((F * G) mod p) ((E * H) mod p).

Definition neutral : point := Point 0 1 1 0.

(** Double-and-add from the low bit of the scalar upwards: [Q] is the
    running sum, [P] the running double. *)
Fixpoint point_mul_pos (s : positive) (P Q : point) : point :=
  match s with
  | xH => point_add Q P
  | xO s' => point_mul_pos s' (point_add P P) Q
  | xI s' => point_mul_pos s' (point_add P P) (point_add Q P)
  end.

Definition point_mul (s : Z) (P : point) : point :=
  match s with
  | Zpos s' => point_mul_pos s' P neutral
  | _ => neutral
  end.

(** The x coordinate of the curve point with ordinate [y] and the given
    parity, when there is one. *)
Definition recover_x (y : bigZ) (sign : bool) : option bigZ :=
  if p <=? y then None
  else
    let x2 := ((y * y - 1) * modp_inv (d * y * y + 1)) mod p in
    if x2 =? 0 then (if sign then None else Some 0)
    else
      let x := pow_mod x2 ((p_Z + 3) / 8) p in
      let x := if (x * x - x2) mod p =? 0 then x else (x * modp_sqrt_m1) mod p in
      if (x * x - x2) mod p =? 0
      then Some (if Bool.eqb (BigZ.odd x) sign then x else p - x)
      else None.

(** The base point: y = 4/5, x even. *)
Definition g_y : bigZ := Eval vm_compute in (4 * modp_inv 5) mod p.
Definition g_x : bigZ :=
  Eval vm_compute in
    match recover_x g_y false with Some x => x | None => 0 end.
Definition G : point := Eval vm_compute in Point g_x g_y 1 ((g_x * g_y) mod p).

(** A point as 32 octets: y little-endian, the parity of x in the top bit. *)
Definition point_compress (P : point) : bytes :=
  let zinv := modp_inv (pZ P) in
  let x := (pX P * zinv) mod p in
  let y := (pY P * zinv) mod p in
  le_bytes 32
    (Z.lor (BigZ.to_Z y) (Z.shiftl (if BigZ.odd x then 1 else 0) 255)).

(** The secret scalar of a seed: the low half of its SHA-512 digest,
    little-endian, with the three low bits and the top bit cleared and
    bit 254 set. *)
Definition secret_scalar (secret : bytes) : Z :=
  let h := Hash.sha512 secret in
  let a := int_from_bytes_little (firstn 32 h) in
  Z.lor (Z.land a (2 ^ 254 - 8)) (2 ^ 254).

Definition secret_to_public (secret : bytes) : bytes :=
  point_compress (point_mul (secret_scalar secret) G).

End Ed25519.

(** ** The two signature libraries *)

(** [nacl.signing]: a [SigningKey] keeps the seed it was built from and
    the matching [VerifyKey]; [bytes(key)] gives back what each keeps. *)
Module nacl.

Record VerifyKey : Set := { VerifyKey_bytes : bytes }.

Record SigningKey : Set :=
  { SigningKey_bytes : bytes;
    verify_key : VerifyKey }.

(** [nacl.signing.SigningKey(seed)] *)
Definition SigningKey_init (seed : bytes) : result SigningKey :=
  if len seed =? 32
  then Ok {| SigningKey_bytes := seed;
             verify_key := {| VerifyKey_bytes := Ed25519.secret_to_public seed |} |}
  else Raise ValueError.

End nacl.

(** [cryptography.hazmat.primitives.asymmetric.ed25519] *)
Module ed25519.

Record Ed25519PublicKey : Set := { raw_public : bytes }.
Record Ed25519PrivateKey : Set := { raw_private : bytes }.

(** [Ed25519PrivateKey.from_private_bytes(data)] *)
Definition from_private_bytes (data : bytes) : result Ed25519PrivateKey :=
  if len data =? 32 then Ok {| raw_private := data |} else Raise ValueError.

(** [key.public_key()] *)
Definition public_key (k : Ed25519PrivateKey) : Ed25519PublicKey :=
  {| raw_public := Ed25519.secret_to_public (raw_private k) |}.

(** [pub.public_bytes(encoding=Raw, format=Raw)] *)
Definition public_bytes_raw (k : Ed25519PublicKey) : bytes := raw_public k.

End ed25519.

(** ** [secrets]: the operating system's random source

    Drawing octets advances a hidden state; a draw of [n] octets returns
    exactly [n] of them. *)
Record Secrets : Type :=
  { pool : Type;
    token_bytes : Z -> pool -> bytes * pool;
    token_bytes_len : forall n s, 0 <= n -> len (fst (token_bytes n s)) = n }.

(** [x in l] for a list of integers. *)
Definition mem (x : Z) (l : list Z) : bool := existsb (Z.eqb x) l.

(** ** [class BIP39] *)

Section BIP39.

(** [self.wordlist] *)
Variable wordlist : list str.

(** [self.wordlist_dict = {word: idx for idx, word in enumerate(self.wordlist)}] *)
Definition wordlist_dict : dict Z :=
  fold_left (fun d iw => dict_set d (snd iw) (fst iw)) (enumerate wordlist) [].

Definition _entropy_to_mnemonic (entropy : bytes) : result str :=
  if negb (mem (len entropy) [16; 20; 24; 28; 32]) then Raise ValueError
  else
    let checksum_length := len entropy / 4 in
    let checksum := Hash.sha256 entropy in
    let bits :=
      zfill (slice (bin (int_from_bytes_big entropy)) (Some 2) None)
            (len entropy * 8) in
    let checksum_bits :=
      slice (zfill (slice (bin (int_from_bytes_big checksum)) (Some 2) None) 256)
            None (Some checksum_length) in
    let bits := bits ++ checksum_bits in
    words <- traverse
               (fun i =>
                  idx <- int_base2 (slice bits (Some i) (Some (i + 11))) ;;
                  getitem wordlist idx)
               (range 0 (len bits) 11) ;;
    Ok (join (lit " ") words).

Definition generate_mnemonic (R : Secrets) (strength : Z) (st : pool R)
    : result str * pool R :=
  if negb (mem strength [128; 160; 192; 224; 256]) then (Raise ValueError, st)
  else
    let (entropy_bytes, st') := token_bytes R (strength / 8) st in
    (_entropy_to_mnemonic entropy_bytes, st').

Definition validate_mnemonic (mnemonic : str) : result bool :=
  let words := split (strip mnemonic) in
  if negb (mem (len words) [12; 15; 18; 21; 24]) then Ok false
  else
    match traverse (dict_get wordlist_dict) words with
    | Raise KeyError => Ok false
    | Raise e => Raise e
    | Ok indices =>
        let bits :=
          List.concat
            (List.map (fun idx => zfill (slice (bin idx) (Some 2) None) 11)
                      indices) in
        let checksum_length := len words / 3 in
        let entropy_bits := slice bits None (Some (- checksum_length)) in
        let checksum_bits := slice bits (Some (- checksum_length)) None in
        n <- int_base2 entropy_bits ;;
        entropy <- int_to_bytes_big n (len entropy_bits / 8) ;;
        let expected_checksum :=
          zfill (slice (bin (int_from_bytes_big (Hash.sha256 entropy)))
                       (Some 2) None) 256 in
        let expected_checksum :=
          slice expected_checksum None (Some checksum_length) in
        Ok (str_eqb checksum_bits expected_checksum)
    end.

End BIP39.

(** [mnemonic_to_seed] does not read [self]. *)
Definition mnemonic_to_seed (mnemonic passphrase : str) : result bytes :=
  mnemonic_bytes <- encode_utf8 mnemonic ;;
  salt <- encode_utf8 (lit "mnemonic" ++ passphrase) ;;
  Ok (Hash.pbkdf2_hmac_sha512 mnemonic_bytes salt 2048).

(** [_load_wordlist] once the file is found: [lines] are the lines of the
    file as iteration over it yields them. *)
Definition _load_wordlist (lines : list str) : result (list str) :=
  let wordlist :=
    List.map strip
      (filter (fun line => negb (str_eqb (strip line) [])) lines) in
  if negb (len wordlist =? 2048) then Raise ValueError else Ok wordlist.

(** ** [class ValidatorKey] *)

Record KeyPair : Set :=
  { private_key : bytes;
    public_key : bytes }.

Record TypedValue : Set :=
  { type : str;
    value : str }.

Record ValidatorRecord : Set :=
  { address : str;
    pub_key : TypedValue;
    priv_key : TypedValue }.

(** [HAS_NACL] is the module-level flag set at import time: [true] when
    PyNaCl was found, [false] when the cryptography library stands in. *)
Definition generate_from_seed (HAS_NACL : bool) (seed : bytes) : result KeyPair :=
  let key_material := Hash.sha256 seed in
  if HAS_NACL then
    signing_key <- nacl.SigningKey_init key_material ;;
    let private_key := nacl.SigningKey_bytes signing_key in
    let public_key := nacl.VerifyKey_bytes (nacl.verify_key signing_key) in
    let private_key_full := private_key ++ public_key in
    Ok {| private_key := private_key_full; public_key := public_key |}
  else
    private_key_obj <- ed25519.from_private_bytes key_material ;;
    let public_key := ed25519.public_bytes_raw (ed25519.public_key private_key_obj) in
    let private_key_full := key_material ++ public_key in
    Ok {| private_key := private_key_full; public_key := public_key |}.

Definition generate_address (public_key : bytes) : result str :=
  let hash_result := Hash.sha256 public_key in
  let address := slice hash_result None (Some 20) in
  Ok (upper (hex address)).

Definition create_priv_validator_key (private_key public_key : bytes)
    : result ValidatorRecord :=
  address <- generate_address public_key ;;
  Ok {| address := address;
        pub_key := {| type := lit "tendermint/PubKeyEd25519";
                      value := decode_ascii (b64encode public_key) |};
        priv_key := {| type := lit "tendermint/PrivKeyEd25519";
                       value := decode_ascii (b64encode private_key) |} |}.

(** The derivation at the end of [main]: seed, key pair, record. *)
Definition derive_validator_key (HAS_NACL : bool) (mnemonic passphrase : str)
    : result ValidatorRecord :=
  seed <- mnemonic_to_seed mnemonic passphrase ;;
  keys <- generate_from_seed HAS_NACL seed ;;
  create_priv_validator_key (private_key keys) (public_key keys).

(** ** The words of the specification

    Bit strings as lists of booleans, most significant bit first. *)

(** The [w] low bits of [z], big-endian, zero-padded. *)
Fixpoint be_bits (w : nat) (z : Z) : list bool :=
  match w with
  | O => []
  | S w' => be_bits w' (z / 2) ++ [Z.odd z]
  end.

(** The number a bit string denotes, read big-endian. *)
Definition bits_value (bs : list bool) : Z :=
  fold_left (fun acc (b : bool) => 2 * acc + (if b then 1 else 0)) bs 0.

(** The text of a bit string, one character [0] or [1] per bit. *)
Definition bitstr (bs : list bool) : str :=
  List.map (fun b : bool => if b then chr1 else chr0) bs.

(** The bits of an octet sequence: eight per octet, in order. *)
Definition bytes_bits (b : bytes) : list bool :=
  flat_map (fun x => be_bits 8 (byte_val x)) b.

(** The octets of a bit string, eight bits per octet. *)
Definition bits_bytes (bs : list bool) : bytes :=
  List.map (fun g => byte_of_Z (bits_value g)) (chunks 8 bs).

Fixpoint bits_eqb (a b : list bool) : bool :=
  match a, b with
  | [], [] => true
  | x :: a', y :: b' => Bool.eqb x y && bits_eqb a' b'
  | _, _ => false
  end.

Section Spec.

Variable wordlist : list str.

(** Position of a word in the word list. *)
Fixpoint index_from (i : Z) (l : list str) (w : str) : option Z :=
  match l with
  | [] => None
  | x :: l' => if str_eqb x w then Some i else index_from (i + 1) l' w
  end.

Definition index_of (w : str) : option Z := index_from 0 wordlist w.

Fixpoint all_some {A : Type} (l : list (option A)) : option (list A) :=
  match l with
  | [] => Some []
  | Some x :: l' =>
      match all_some l' with Some xs => Some (x :: xs) | None => None end
  | None :: _ => None
  end.

(** Encoding, in the words of the specification: entropy bits, then the
    first [entropyBits/32] bits of the SHA-256 digest, cut into groups of
    eleven bits, each group looked up in the word list. *)
Definition spec_checksum (entropy : bytes) : list bool :=
  firstn (List.length entropy * 8 / 32) (bytes_bits (Hash.sha256 entropy)).

Definition spec_groups (entropy : bytes) : list (list bool) :=
  chunks 11 (bytes_bits entropy ++ spec_checksum entropy).

Definition spec_word (g : list bool) : str :=
  nth (Z.to_nat (bits_value g)) wordlist [].

Definition spec_words (entropy : bytes) : list str :=
  List.map spec_word (spec_groups entropy).

(** Validation, in the words of the specification. *)
Definition spec_validate (mnemonic : str) : bool :=
  let words := split mnemonic in
  let n := List.length words in
  if negb (existsb (Nat.eqb n) [12; 15; 18; 21; 24]%nat) then false
  else
    match all_some (List.map index_of words) with
    | None => false
    | Some indices =>
        let bits := flat_map (be_bits 11) indices in
        let cs := (n / 3)%nat in
        let entropy_bits := firstn (List.length bits - cs) bits in
        let checksum_bits := skipn (List.length bits - cs) bits in
        bits_eqb checksum_bits
          (firstn cs (bytes_bits (Hash.sha256 (bits_bytes entropy_bits))))
    end.

End Spec.

(** Address derivation, in the words of the specification: upper-case
    hexadecimal digits of the first twenty octets of the digest. *)
Definition upper_hex_digit (n : N) : N :=
  (if n <? 10 then 48 + n else 55 + n)%N.

Definition spec_address (public_key : bytes) : str :=
  flat_map (fun x => let n := Byte.to_N x in
                     [upper_hex_digit (n / 16)%N; upper_hex_digit (n mod 16)%N])
           (firstn 20 (Hash.sha256 public_key)).

Definition is_upper_hex (c : N) : bool :=
  ((48 <=? c) && (c <=? 57) || (65 <=? c) && (c <=? 70))%N.

(** ** Well-formed word lists and a word list for examples *)

(** A word is a non-empty run of characters none of which is whitespace. *)
Definition is_word (w : str) : bool :=
  negb (str_eqb w []) && forallb (fun c => negb (isspace c)) w.

Fixpoint distinct (l : list str) : bool :=
  match l with
  | [] => true
  | w :: l' => negb (existsb (str_eqb w) l') && distinct l'
  end.

(** What the specification asks of the word list: 2048 words, no
    duplicates. *)
Definition wordlist_ok (wl : list str) : bool :=
  (List.length wl =? 2048)%nat && distinct wl && forallb is_word wl.

(** A stand-in for the English word list: its entries 0 and 3 are those of
    the English list, the others are placeholders. *)
Definition example_wordlist : list str :=
  List.map
    (fun i => if (i =? 0)%nat then lit "abandon"
              else if (i =? 3)%nat then lit "about"
              else lit "w" ++ pos_digits (Pos.of_nat i) [])
    (seq 0 2048).

(** A random source for examples: every draw is made of zero octets. *)
Definition zero_source : Secrets.
Proof.
  refine {| pool := unit;
            token_bytes := fun n s => (List.repeat x00 (Z.to_nat n), s) |}.
  intros n s Hn. unfold len. cbn [fst]. rewrite repeat_length. lia.
Defined.

(** The 12-word test mnemonic and the seed published for it with the
    empty passphrase. *)
Definition abandon_about : str :=
  lit "abandon abandon abandon abandon abandon abandon abandon abandon abandon abandon abandon about".

Definition of_hex_digit (c : N) : N := (if c <? 58 then c - 48 else c - 87)%N.

(** [bytes.fromhex] on lower-case digits. *)
Definition fromhex (s : string) : bytes :=
  List.map
    (fun c => match c with
              | [a; b] => byte_of_N (16 * of_hex_digit a + of_hex_digit b)
              | _ => x00
              end)
    (chunks 2 (lit s)).

(** The octets of an ASCII literal. *)
Definition ascii_bytes (s : string) : bytes := List.map byte_of_N (lit s).

(** The same words followed by one space, and the seed that text gives. *)
Definition abandon_about_space : str := abandon_about ++ lit " ".

Definition abandon_about_space_seed : bytes :=
  fromhex "afbd34508eea8a1b5fedd15f405c4878327254e0a0e2ff9a2ba88c2101b964bcd8a74ade84d9b9bd0c4a3d573ddbd18f5684bff694207e42cd92c1d7ed537785".

Definition abandon_about_seed : bytes :=
  fromhex "5eb00bbddcf069084889a8ab9155568165f5c453ccb85e70811aaed6f6da5fc19a5ac40b389cd370d086206dec8aa6c43daea6690f20ad3d8d48b2d2ce9e38e4".

(** ** [main] of [genvalidatorkey.py]

    A run of [main] is described by what it leaves behind: the lines it
    printed, the object it handed to [json.dump], how it ended and the
    state of the random source afterwards.  The streams are taken to
    accept every text. *)

Inductive stream : Set := stdout | stderr.

(** [main] returns, [sys.exit] is called, an exception of the pipeline
    leaves [main], or [open(output_file, 'w')] raises [OSError]. *)
Inductive ending : Set :=
| Returned
| Exited (code : Z)
| Uncaught (e : exn)
| UncaughtOSError.

Record Run (P : Type) : Type :=
  { printed : list (stream * str);
    written : option (str * ValidatorRecord);
    ended : ending;
    source : P }.

Arguments printed {P} _.
Arguments written {P} _.
Arguments ended {P} _.
Arguments source {P} _.

(** The files a run can see: the lines of [bip39.txt] in the current
    directory and beside the script, where such a file exists, and the
    paths that can be opened for writing. *)
Record Files : Type :=
  { in_cwd : option (list str);
    beside_script : option (list str);
    can_write : str -> bool }.

(** [BIP39()] ends with a word list, with [FileNotFoundError] or with
    another exception. *)
Inductive Loaded : Type :=
| Wordlist (wordlist : list str)
| FileNotFound (message : str)
| LoadError (e : exn).

(** The text of the [FileNotFoundError] raised by [_load_wordlist]. *)
Definition not_found (path : str) : str :=
  lit "BIP39 wordlist not found at " ++ path ++ [10%N]
  ++ lit "Please download from: https://github.com/bitcoin/bips/blob/master/bip-0039/english.txt"
  ++ [10%N]
  ++ lit "Or create bip39.txt with 2048 words (one per line)".

(** [BIP39()], with the default path [bip39.txt]: the path as given is
    tried first, then the script's directory (the loop tries the path as
    given once more, and its last two candidates are the same file). *)
Definition BIP39_init (fs : Files) : Loaded :=
  let found :=
    match in_cwd fs with
    | Some lines => Some lines
    | None => beside_script fs
    end in
  match found with
  | None => FileNotFound (not_found (lit "bip39.txt"))
  | Some lines =>
      match _load_wordlist lines with
      | Ok wordlist => Wordlist wordlist
      | Raise e => LoadError e
      end
  end.

(** [str.lower] on the letters A to Z.  [main] only compares the result
    with [generate], and no character outside ASCII lowers to a letter of
    that word. *)
Definition lower_char (c : N) : N :=
  (if (65 <=? c) && (c <=? 90) then c + 32 else c)%N.
Definition lower (s : str) : str := List.map lower_char s.

Definition usage : list (stream * str) :=
  [ (stdout, lit "Usage: genvalidatorkey.py <mnemonic|generate> [output_file]");
    (stdout, []);
    (stdout, lit "Examples:");
    (stdout, lit "  # Generate new mnemonic and key");
    (stdout, lit "  python genvalidatorkey.py generate");
    (stdout, []);
    (stdout, lit "  # Use existing mnemonic");
    (stdout, lit "  python genvalidatorkey.py " ++ [34%N]
             ++ lit "word1 word2 ... word24" ++ [34%N]
             ++ lit " priv_validator_key.json") ].

(** The lines printed once the file is written; the first starts with a
    check mark, the fifth with a warning sign. *)
Definition report (output_file : str) (validator_key : ValidatorRecord)
    : list (stream * str) :=
  [ (stdout, [10003%N] ++ lit " Created validator key file: " ++ output_file);
    (stdout, lit "  Address: " ++ address validator_key);
    (stdout, lit "  PubKey:  " ++ value (pub_key validator_key));
    (stdout, []);
    (stdout, [9888%N; 65039%N]
             ++ lit "  IMPORTANT: Keep your mnemonic phrase secure!");
    (stdout, lit "   It can be used to recover this validator key.") ].

Definition stop {P : Type} (out : list (stream * str)) (e : ending) (st : P)
    : Run P :=
  {| printed := out; written := None; ended := e; source := st |}.

(** [main], from the seed derivation on: [out] is what was printed so
    far. *)
Definition main_derive {P : Type} (HAS_NACL : bool) (fs : Files)
    (output_file : str) (out : list (stream * str)) (mnemonic : str) (st : P)
    : Run P :=
  match derive_validator_key HAS_NACL mnemonic [] with
  | Raise e => stop out (Uncaught e) st
  | Ok validator_key =>
      if can_write fs output_file then
        {| printed := out ++ report output_file validator_key;
           written := Some (output_file, validator_key);
           ended := Returned;
           source := st |}
      else stop out UncaughtOSError st
  end.

(** [main()]; [argv] is [sys.argv]. *)
Definition main (HAS_NACL : bool) (R : Secrets) (fs : Files)
    (argv : list str) (st : pool R) : Run (pool R) :=
  match argv with
  | [] | [_] => stop usage (Exited 1) st
  | _ :: arg1 :: rest =>
      match BIP39_init fs with
      | FileNotFound e => stop [(stderr, lit "Error: " ++ e)] (Exited 1) st
      | LoadError e => stop [] (Uncaught e) st
      | Wordlist wordlist =>
          let output_file :=
            match rest with
            | [] => lit "priv_validator_key.json"
            | arg2 :: _ => arg2
            end in
          if str_eqb (lower arg1) (lit "generate") then
            let out := [(stdout, lit "Generated mnemonic (SAVE THIS SECURELY):")] in
            match generate_mnemonic wordlist R 256 st with
            | (Raise e, st') => stop out (Uncaught e) st'
            | (Ok mnemonic, st') =>
                main_derive HAS_NACL fs output_file
                  (out ++ [(stdout, mnemonic); (stdout, [])]) mnemonic st'
            end
          else
            let mnemonic := arg1 in
            match validate_mnemonic wordlist mnemonic with
            | Raise e => stop [] (Uncaught e) st
            | Ok false =>
                stop [(stderr, lit "Error: Invalid mnemonic phrase")]
                  (Exited 1) st
            | Ok true => main_derive HAS_NACL fs output_file [] mnemonic st
            end
      end
  end.

(** ** [generate_test_actors.py] *)

(** [s * n]: no copy at all when [n] is zero or negative. *)
Definition str_repeat (s : str) (n : Z) : str :=
  List.concat (List.repeat s (Z.to_nat n)).

(** [generate_cosmos_address(seed_phrase, name)]: the digest of the name
    immediately followed by the seed phrase, cut to 40 hexadecimal digits
    behind a fixed prefix. *)
Definition generate_cosmos_address (seed_phrase name : str) : result str :=
  data <- encode_utf8 (name ++ seed_phrase) ;;
  let hex_hash := slice (hex (Hash.sha256 data)) None (Some 40) in
  Ok (lit "pokerchain1" ++ hex_hash).

(** The address [main] writes for an actor:
    [f"pokerchain1{name}{'0' * (39 - len(name))}"]. *)
Definition placeholder_address (name : str) : str :=
  lit "pokerchain1" ++ name ++ str_repeat (lit "0") (39 - len name).

(** ** Notions used to state further properties *)

(** The value the last pair with key [k] gives to [k]. *)
Fixpoint last_binding (pairs : list (Z * str)) (k : str) : option Z :=
  match pairs with
  | [] => None
  | (i, k') :: rest =>
      match last_binding rest k with
      | Some v => Some v
      | None => if str_eqb k' k then Some i else None
      end
  end.

(** Code points that UTF-8 can encode: all but the surrogates, below
    0x110000. *)
Definition is_scalar (c : N) : bool :=
  ((c <? 55296) || (57343 <? c) && (c <? 1114112))%N.

Definition is_lower_hex (c : N) : bool :=
  ((48 <=? c) && (c <=? 57) || (97 <=? c) && (c <=? 102))%N.

(** Characters of base64 text: letters, digits, [+], [/] and the pad [=]. *)
Definition is_base64 (c : N) : bool :=
  ((65 <=? c) && (c <=? 90) || (97 <=? c) && (c <=? 122)
   || (48 <=? c) && (c <=? 57) || (c =? 43) || (c =? 47) || (c =? 61))%N.


(* ===================================================================== *)
(** * Part II.  Properties                                                *)
(* ===================================================================== *)

(** The compression functions and the scalar multiplication are run by
    the virtual machine only; proof search must not unfold them. *)
#[global] Opaque Hash.SHA256.compress Hash.SHA512.compress Ed25519.point_mul.

(** ** Decisions on strings and small tactics *)

Ltac inv H := inversion H; subst; clear H.

Lemma str_eqb_refl (a : str) : str_eqb a a = true.
Proof. induction a; simpl; [reflexivity | now rewrite N.eqb_refl]. Qed.

Lemma str_eqb_eq (a b : str) : str_eqb a b = true <-> a = b.
Proof.
  split.
  - revert b. induction a as [| x a IH]; intros [| y b] H; simpl in H;
      try discriminate; [reflexivity |].
    apply andb_true_iff in H. destruct H as [H1 H2].
    apply N.eqb_eq in H1. f_equal; auto.
  - intros ->. apply str_eqb_refl.
Qed.

Lemma str_eqb_neq (a b : str) : str_eqb a b = false <-> a <> b.
Proof.
  rewrite <- str_eqb_eq. destruct (str_eqb a b); split; intro H;
    congruence.
Qed.

Lemma bits_eqb_eq (a b : list bool) : bits_eqb a b = true <-> a = b.
Proof.
  split.
  - revert b. induction a as [| x a IH]; intros [| y b] H; simpl in H;
      try discriminate; [reflexivity |].
    apply andb_true_iff in H. destruct H as [H1 H2].
    apply eqb_prop in H1. f_equal; auto.
  - intros ->. induction b; simpl; [reflexivity |].
    now rewrite eqb_reflx.
Qed.

Lemma mem_In (x : Z) (l : list Z) : mem x l = true <-> In x l.
Proof.
  unfold mem. rewrite existsb_exists. split.
  - intros (y & Hy & E). apply Z.eqb_eq in E. now subst.
  - intros H. exists x. split; [assumption | apply Z.eqb_refl].
Qed.

Lemma len_app {A : Type} (a b : list A) : len (a ++ b) = len a + len b.
Proof. unfold len. rewrite length_app. lia. Qed.

Lemma len_nonneg {A : Type} (a : list A) : 0 <= len a.
Proof. unfold len. lia. Qed.

(** ** Slices *)

Lemma slice_from {A : Type} (s : list A) (a : Z) :
  0 <= a -> slice s (Some a) None = skipn (Z.to_nat a) s.
Proof.
  intros Ha. unfold slice, clip_index, len.
  destruct (a <? 0) eqn:E; [apply Z.ltb_lt in E; lia |].
  destruct (Z.le_gt_cases a (Z.of_nat (List.length s))) as [H | H].
  - replace (Z.to_nat (Z.max 0 (Z.min (Z.of_nat (List.length s)) a)))
      with (Z.to_nat a) by lia.
    apply firstn_all2. rewrite length_skipn. lia.
  - replace (Z.to_nat (Z.max 0 (Z.min (Z.of_nat (List.length s)) a)))
      with (List.length s) by lia.
    rewrite Nat.sub_diag. simpl.
    symmetry. apply skipn_all2. lia.
Qed.

Lemma slice_range {A : Type} (s : list A) (a b : Z) :
  0 <= a <= b ->
  slice s (Some a) (Some b) = firstn (Z.to_nat (b - a)) (skipn (Z.to_nat a) s).
Proof.
  intros Hab. unfold slice, clip_index, len.
  destruct (a <? 0) eqn:Ea; [apply Z.ltb_lt in Ea; lia |].
  destruct (b <? 0) eqn:Eb; [apply Z.ltb_lt in Eb; lia |].
  set (n := List.length s).
  destruct (Z.le_gt_cases a (Z.of_nat n)) as [H | H].
  - replace (Z.to_nat (Z.max 0 (Z.min (Z.of_nat n) a))) with (Z.to_nat a) by lia.
    destruct (Z.le_gt_cases b (Z.of_nat n)) as [H' | H'].
    + f_equal. lia.
    + replace (Z.to_nat (Z.max 0 (Z.min (Z.of_nat n) b))) with n by lia.
      rewrite !firstn_all2; try reflexivity; rewrite length_skipn; fold n; lia.
  - rewrite !skipn_all2 by (fold n; lia). now rewrite !firstn_nil.
Qed.

Lemma slice_to {A : Type} (s : list A) (b : Z) :
  0 <= b -> slice s None (Some b) = firstn (Z.to_nat b) s.
Proof.
  intros Hb. unfold slice, clip_index, len.
  destruct (b <? 0) eqn:Eb; [apply Z.ltb_lt in Eb; lia |].
  simpl skipn. rewrite Nat.sub_0_r.
  destruct (Z.le_gt_cases b (Z.of_nat (List.length s))) as [H | H].
  - f_equal. lia.
  - rewrite !firstn_all2; try reflexivity; lia.
Qed.

Lemma slice_to_neg {A : Type} (s : list A) (k : Z) :
  0 < k <= len s ->
  slice s None (Some (- k)) = firstn (List.length s - Z.to_nat k) s.
Proof.
  intros Hk. unfold slice, clip_index. unfold len in *.
  destruct (- k <? 0) eqn:E; [| apply Z.ltb_ge in E; lia].
  simpl skipn. rewrite Nat.sub_0_r. f_equal. lia.
Qed.

Lemma slice_from_neg {A : Type} (s : list A) (k : Z) :
  0 < k <= len s ->
  slice s (Some (- k)) None = skipn (List.length s - Z.to_nat k) s.
Proof.
  intros Hk. unfold slice, clip_index. unfold len in *.
  destruct (- k <? 0) eqn:E; [| apply Z.ltb_ge in E; lia].
  replace (Z.to_nat (Z.max 0 (Z.min (Z.of_nat (List.length s))
                                    (- k + Z.of_nat (List.length s)))))
    with (List.length s - Z.to_nat k)%nat by lia.
  apply firstn_all2. rewrite length_skipn. lia.
Qed.

(** ** Pieces of a list *)

Lemma chunks_fuel_enough {A : Type} (n : nat) :
  (0 < n)%nat ->
  forall (f g : nat) (l : list A),
    (List.length l <= f)%nat -> (List.length l <= g)%nat ->
    chunks_fuel f n l = chunks_fuel g n l.
Proof.
  intros Hn. induction f as [| f IH]; intros g l Hf Hg.
  - destruct l; [| simpl in Hf; lia]. destruct g; reflexivity.
  - destruct l as [| x l]; [destruct g; reflexivity |].
    destruct g as [| g]; [simpl in Hg; lia |].
    cbn [chunks_fuel]. f_equal.
    apply IH; rewrite length_skipn; cbn [List.length] in *; lia.
Qed.

Lemma chunks_nil {A : Type} (n : nat) : chunks n (@nil A) = [].
Proof. reflexivity. Qed.

Lemma chunks_app {A : Type} (n : nat) (a b : list A) :
  (0 < n)%nat -> List.length a = n -> chunks n (a ++ b) = a :: chunks n b.
Proof.
  intros Hn Ha. unfold chunks.
  destruct a as [| x a]; [simpl in Ha; lia |].
  cbn [app List.length chunks_fuel].
  change (x :: a ++ b) with ((x :: a) ++ b).
  rewrite firstn_app, skipn_app, Ha, Nat.sub_diag.
  rewrite firstn_all2 by lia. rewrite skipn_all2 by lia.
  simpl firstn. simpl skipn. rewrite app_nil_r. simpl app.
  f_equal. apply chunks_fuel_enough; [assumption | rewrite length_app; lia | lia].
Qed.

Lemma chunks_concat {A : Type} (n : nat) (gs : list (list A)) :
  (0 < n)%nat -> Forall (fun g => List.length g = n) gs ->
  chunks n (List.concat gs) = gs.
Proof.
  intros Hn H. induction H as [| g gs Hg _ IH]; [reflexivity |].
  cbn [List.concat]. rewrite chunks_app by assumption. now rewrite IH.
Qed.

Lemma concat_chunks_fuel {A : Type} (n : nat) :
  (0 < n)%nat ->
  forall (f : nat) (l : list A),
    (List.length l <= f)%nat -> List.concat (chunks_fuel f n l) = l.
Proof.
  intros Hn. induction f as [| f IH]; intros l Hf.
  - destruct l; [reflexivity | simpl in Hf; lia].
  - destruct l as [| x l]; [reflexivity |].
    cbn [chunks_fuel List.concat]. rewrite IH.
    + apply firstn_skipn.
    + rewrite length_skipn. cbn [List.length] in *. lia.
Qed.

Lemma concat_chunks {A : Type} (n : nat) (l : list A) :
  (0 < n)%nat -> List.concat (chunks n l) = l.
Proof. intros Hn. apply concat_chunks_fuel; [assumption | lia]. Qed.

(** A list whose length is a multiple of [n] splits into whole pieces. *)
Lemma chunks_whole {A : Type} (n : nat) :
  (0 < n)%nat ->
  forall (k : nat) (l : list A),
    List.length l = (k * n)%nat ->
    List.length (chunks n l) = k /\
    Forall (fun g => List.length g = n) (chunks n l).
Proof.
  intros Hn. induction k as [| k IH]; intros l Hl.
  - destruct l; [split; [reflexivity | constructor] | simpl in Hl; lia].
  - rewrite <- (firstn_skipn n l).
    assert (Hf : List.length (firstn n l) = n) by (rewrite length_firstn; lia).
    rewrite chunks_app by assumption.
    destruct (IH (skipn n l)) as [IH1 IH2]; [rewrite length_skipn; lia |].
    split; [simpl; now rewrite IH1 | constructor; assumption].
Qed.

(** The loop [for i in range(0, len(s), n)] over [s[i:i+n]] visits the
    pieces of [s]. *)
Lemma range_slices_fuel {A : Type} (n : nat) (s : list A) :
  (0 < n)%nat ->
  forall (c a : nat),
    (List.length s - a <= c)%nat ->
    List.map (fun i => slice s (Some i) (Some (i + Z.of_nat n)))
             (range_from c (Z.of_nat a) (len s) (Z.of_nat n))
    = chunks_fuel c n (skipn a s).
Proof.
  intros Hn. induction c as [| c IH]; intros a Hc.
  - simpl. reflexivity.
  - cbn [range_from chunks_fuel]. unfold len at 1.
    destruct (Z.of_nat a <? Z.of_nat (List.length s)) eqn:E.
    + apply Z.ltb_lt in E.
      destruct (skipn a s) as [| x t] eqn:Es.
      { apply (f_equal (@List.length A)) in Es.
        rewrite length_skipn in Es. simpl in Es. lia. }
      rewrite <- Es. cbn [List.map]. f_equal.
      * rewrite slice_range by lia.
        rewrite Nat2Z.id. f_equal. lia.
      * replace (Z.of_nat a + Z.of_nat n) with (Z.of_nat (a + n)) by lia.
        rewrite IH by lia. f_equal.
        rewrite skipn_skipn. f_equal. lia.
    + apply Z.ltb_ge in E. rewrite skipn_all2 by lia. reflexivity.
Qed.

Lemma range_slices {A : Type} (n : nat) (s : list A) :
  (0 < n)%nat ->
  List.map (fun i => slice s (Some i) (Some (i + Z.of_nat n)))
           (range 0 (len s) (Z.of_nat n))
  = chunks n s.
Proof.
  intros Hn. unfold range, chunks.
  replace (Z.to_nat (len s - 0)) with (List.length s) by (unfold len; lia).
  change 0 with (Z.of_nat 0) at 1.
  rewrite range_slices_fuel by lia. reflexivity.
Qed.

Lemma traverse_map {A B C : Type} (f : B -> result C) (g : A -> B) (l : list A) :
  traverse (fun x => f (g x)) l = traverse f (List.map g l).
Proof. induction l; simpl; [reflexivity | now rewrite IHl]. Qed.

Lemma traverse_ok {A B : Type} (f : A -> result B) (g : A -> B) (l : list A) :
  Forall (fun x => f x = Ok (g x)) l -> traverse f l = Ok (List.map g l).
Proof.
  induction 1 as [| x l Hx _ IH]; simpl; [reflexivity |].
  now rewrite Hx, IH.
Qed.

(** ** Bit strings *)

Lemma be_bits_length (w : nat) : forall z, List.length (be_bits w z) = w.
Proof.
  induction w; intros z; simpl; [reflexivity |].
  rewrite length_app, IHw. simpl. lia.
Qed.

Lemma be_bits_zero (w : nat) : be_bits w 0 = List.repeat false w.
Proof.
  induction w; simpl; [reflexivity |].
  change (0 / 2) with 0. rewrite IHw.
  change (Z.odd 0) with false.
  now rewrite <- repeat_cons.
Qed.

Lemma bits_value_fold (bs : list bool) (acc : Z) :
  fold_left (fun a (b : bool) => 2 * a + (if b then 1 else 0)) bs acc
  = acc * 2 ^ Z.of_nat (List.length bs) + bits_value bs.
Proof.
  unfold bits_value. revert acc.
  induction bs as [| b bs IH]; intros acc.
  - simpl. lia.
  - cbn [fold_left List.length]. rewrite IH. rewrite (IH (2 * 0 + _)).
    rewrite Nat2Z.inj_succ, Z.pow_succ_r by lia. lia.
Qed.

Lemma bits_value_app (a b : list bool) :
  bits_value (a ++ b) = bits_value a * 2 ^ Z.of_nat (List.length b) + bits_value b.
Proof.
  unfold bits_value at 1. rewrite fold_left_app.
  fold (bits_value a). apply bits_value_fold.
Qed.

Lemma bits_value_range (bs : list bool) :
  0 <= bits_value bs < 2 ^ Z.of_nat (List.length bs).
Proof.
  induction bs as [| b bs IH] using rev_ind.
  - cbn. lia.
  - rewrite bits_value_app, length_app. cbn [List.length].
    replace (Z.of_nat (List.length bs + 1)) with (Z.succ (Z.of_nat (List.length bs))) by lia.
    rewrite Z.pow_succ_r by lia.
    change (2 ^ Z.of_nat 1) with 2.
    assert (0 <= bits_value [b] <= 1) by (destruct b; cbn; lia).
    lia.
Qed.

Lemma bits_value_be_bits (w : nat) :
  forall z, 0 <= z < 2 ^ Z.of_nat w -> bits_value (be_bits w z) = z.
Proof.
  induction w as [| w IH]; intros z Hz.
  - cbn in *. lia.
  - cbn [be_bits]. rewrite bits_value_app.
    rewrite Nat2Z.inj_succ, Z.pow_succ_r in Hz by lia.
    rewrite IH by (split; [apply Z.div_pos; lia | apply Z.div_lt_upper_bound; lia]).
    change (2 ^ Z.of_nat (List.length [Z.odd z])) with 2.
    pose proof (Z.div_mod z 2 ltac:(lia)) as E. rewrite Zmod_odd in E.
    assert (E' : forall b : bool, bits_value [b] = if b then 1 else 0)
      by (intros []; reflexivity).
    rewrite E'. destruct (Z.odd z); lia.
Qed.

Lemma be_bits_bits_value (bs : list bool) :
  be_bits (List.length bs) (bits_value bs) = bs.
Proof.
  induction bs as [| b bs IH] using rev_ind; [reflexivity |].
  rewrite length_app, Nat.add_comm. cbn [List.length Nat.add be_bits].
  rewrite bits_value_app. change (2 ^ Z.of_nat (List.length [b])) with 2.
  assert (E : bits_value [b] = if b then 1 else 0) by (destruct b; reflexivity).
  rewrite E.
  assert (Hd : (bits_value bs * 2 + (if b then 1 else 0)) / 2 = bits_value bs).
  { symmetry. apply Z.div_unique with (if b then 1 else 0); destruct b; lia. }
  assert (Ho : Z.odd (bits_value bs * 2 + (if b then 1 else 0)) = b).
  { rewrite Z.add_comm, Z.mul_comm, Z.odd_add_mul_2. now destruct b. }
  now rewrite Hd, Ho, IH.
Qed.

(** High part and low part of a number sit side by side. *)
Lemma be_bits_app (a b : nat) (x y : Z) :
  0 <= y < 2 ^ Z.of_nat b ->
  be_bits (a + b) (x * 2 ^ Z.of_nat b + y) = be_bits a x ++ be_bits b y.
Proof.
  revert y. induction b as [| b IH]; intros y Hy.
  - cbn in Hy. replace y with 0 by lia. rewrite Nat.add_0_r.
    cbn [be_bits]. rewrite app_nil_r. f_equal. cbn. lia.
  - rewrite Nat.add_succ_r. cbn [be_bits].
    rewrite Nat2Z.inj_succ, Z.pow_succ_r in * by lia.
    rewrite app_assoc. f_equal.
    + rewrite <- IH by (split; [apply Z.div_pos; lia | apply Z.div_lt_upper_bound; lia]).
      f_equal.
      replace (x * (2 * 2 ^ Z.of_nat b) + y) with (y + (x * 2 ^ Z.of_nat b) * 2) by lia.
      rewrite Z.div_add by lia. lia.
    + f_equal.
      replace (x * (2 * 2 ^ Z.of_nat b) + y) with (y + 2 * (x * 2 ^ Z.of_nat b)) by lia.
      apply Z.odd_add_mul_2.
Qed.

Lemma bitstr_app (a b : list bool) : bitstr (a ++ b) = bitstr a ++ bitstr b.
Proof. apply map_app. Qed.

Lemma bitstr_length (a : list bool) : List.length (bitstr a) = List.length a.
Proof. apply length_map. Qed.

Lemma bitstr_inj (a b : list bool) : bitstr a = bitstr b -> a = b.
Proof.
  revert b. induction a as [| x a IH]; intros [| y b] H; try discriminate;
    [reflexivity |].
  cbn in H. injection H as H1 H2. f_equal; [| now apply IH].
  destruct x, y; try reflexivity; discriminate.
Qed.

Lemma bitstr_firstn (n : nat) (a : list bool) :
  firstn n (bitstr a) = bitstr (firstn n a).
Proof. unfold bitstr. now rewrite firstn_map. Qed.

Lemma bitstr_skipn (n : nat) (a : list bool) :
  skipn n (bitstr a) = bitstr (skipn n a).
Proof. unfold bitstr. now rewrite skipn_map. Qed.

Lemma bitstr_eqb (a b : list bool) :
  str_eqb (bitstr a) (bitstr b) = bits_eqb a b.
Proof.
  revert b. induction a as [| x a IH]; intros [| y b]; try reflexivity.
  cbn. rewrite IH. now destruct x, y.
Qed.

Lemma digits_value_bitstr (bs : list bool) (acc : Z) :
  digits_value acc (bitstr bs)
  = Ok (fold_left (fun a (b : bool) => 2 * a + (if b then 1 else 0)) bs acc).
Proof.
  revert acc. induction bs as [| b bs IH]; intros acc; [reflexivity |].
  destruct b; cbn; rewrite IH; do 2 f_equal; lia.
Qed.

Lemma int_base2_bitstr (bs : list bool) :
  bs <> [] -> int_base2 (bitstr bs) = Ok (bits_value bs).
Proof.
  intros H. destruct bs as [| b bs]; [contradiction |].
  unfold int_base2. cbn [bitstr List.map].
  change (digits_value 0 (bitstr (b :: bs)) = Ok (bits_value (b :: bs))).
  apply digits_value_bitstr.
Qed.

(** [bin] writes the digits of a positive number without leading zeros. *)
Lemma pos_digits_bits (p : positive) :
  forall (w : nat) (acc : str),
    Z.pos p < 2 ^ Z.of_nat w ->
    bitstr (be_bits w (Z.pos p)) ++ acc
    = List.repeat chr0 (w - Pos.size_nat p) ++ pos_digits p acc.
Proof.
  induction p as [p IH | p IH |]; intros w acc Hw.
  - destruct w as [| w]; [cbn in Hw; lia |].
    rewrite Nat2Z.inj_succ, Z.pow_succ_r in Hw by lia.
    cbn [be_bits pos_digits Pos.size_nat Nat.sub].
    rewrite bitstr_app, <- app_assoc.
    replace (Z.pos p~1 / 2) with (Z.pos p)
      by (apply Z.div_unique with 1; lia).
    cbn [bitstr List.map app Z.odd]. apply IH. lia.
  - destruct w as [| w]; [cbn in Hw; lia |].
    rewrite Nat2Z.inj_succ, Z.pow_succ_r in Hw by lia.
    cbn [be_bits pos_digits Pos.size_nat Nat.sub].
    rewrite bitstr_app, <- app_assoc.
    replace (Z.pos p~0 / 2) with (Z.pos p)
      by (apply Z.div_unique with 0; lia).
    cbn [bitstr List.map app Z.odd]. apply IH. lia.
  - destruct w as [| w]; [cbn in Hw; lia |].
    cbn [be_bits pos_digits Pos.size_nat Nat.sub].
    change (1 / 2) with 0. rewrite be_bits_zero, Nat.sub_0_r.
    rewrite bitstr_app, <- app_assoc. unfold bitstr at 1.
    rewrite map_repeat. reflexivity.
Qed.

Lemma pos_digits_length (p : positive) (acc : str) :
  List.length (pos_digits p acc) = (Pos.size_nat p + List.length acc)%nat.
Proof.
  revert acc. induction p; intros acc; cbn [pos_digits Pos.size_nat];
    try rewrite IHp; simpl; lia.
Qed.

Lemma pos_digits_head (p : positive) (acc : str) :
  exists t, pos_digits p acc = chr1 :: t.
Proof.
  revert acc. induction p; intros acc; cbn [pos_digits]; eauto.
Qed.

Lemma pos_size_bound (p : positive) (w : nat) :
  Z.pos p < 2 ^ Z.of_nat w -> (Pos.size_nat p <= w)%nat.
Proof.
  revert w. induction p as [p IH | p IH |]; intros w Hw;
    (destruct w as [| w]; [cbn in Hw; lia |]);
    cbn [Pos.size_nat]; try (apply le_n_S, IH);
    rewrite ?Nat2Z.inj_succ, ?Z.pow_succ_r in Hw by lia; lia.
Qed.

Lemma zfill_digit (s : str) (width : Z) (c : N) (t : str) :
  s = c :: t -> c = chr0 \/ c = chr1 ->
  zfill s width = List.repeat chr0 (Z.to_nat (width - len s)) ++ s.
Proof.
  intros -> [-> | ->]; reflexivity.
Qed.

(** [bin(z)[2:].zfill(w)] is the big-endian, zero-padded binary text of
    [z] on [w] digits. *)
Lemma zfill_bin (w : nat) (z : Z) :
  0 <= z < 2 ^ Z.of_nat w -> (0 < w)%nat ->
  zfill (slice (bin z) (Some 2) None) (Z.of_nat w) = bitstr (be_bits w z).
Proof.
  intros Hz Hw. rewrite slice_from by lia.
  destruct z as [| p | p]; [| | lia].
  - cbn [bin]. change (skipn (Z.to_nat 2) (lit "0b0")) with [chr0].
    rewrite (zfill_digit [chr0] _ chr0 []) by auto.
    rewrite be_bits_zero. unfold bitstr. rewrite map_repeat.
    unfold len. cbn [List.length].
    change [chr0] with (List.repeat chr0 1).
    rewrite <- repeat_app. f_equal. lia.
  - cbn [bin]. change (skipn (Z.to_nat 2) (lit "0b" ++ pos_digits p []))
      with (pos_digits p []).
    pose proof (pos_digits_bits p w [] (proj2 Hz)) as E.
    rewrite app_nil_r in E. rewrite E.
    destruct (pos_digits_head p []) as [t Ht].
    rewrite (zfill_digit _ _ chr1 t Ht) by auto.
    f_equal. f_equal.
    unfold len. rewrite pos_digits_length. cbn [List.length].
    pose proof (pos_size_bound p w (proj2 Hz)). lia.
Qed.

(** ** Octets and numbers *)

Lemma byte_val_range (b : byte) : 0 <= byte_val b < 256.
Proof.
  unfold byte_val. pose proof (Byte.to_N_bounded b). lia.
Qed.

Lemma byte_of_N_to_N (b : byte) : byte_of_N (Byte.to_N b) = b.
Proof.
  unfold byte_of_N. rewrite N.mod_small
    by (pose proof (Byte.to_N_bounded b); lia).
  now rewrite Byte.of_to_N.
Qed.

Lemma to_N_byte_of_N (n : N) : (n < 256)%N -> Byte.to_N (byte_of_N n) = n.
Proof.
  intros Hn. unfold byte_of_N. rewrite N.mod_small by assumption.
  destruct (Byte.of_N n) as [b |] eqn:E.
  - now apply Byte.to_of_N.
  - apply Byte.of_N_None_iff in E. lia.
Qed.

Lemma byte_of_Z_val (b : byte) : byte_of_Z (byte_val b) = b.
Proof.
  unfold byte_of_Z. rewrite Z.mod_small by apply byte_val_range.
  unfold byte_val. rewrite N2Z.id. apply byte_of_N_to_N.
Qed.

Lemma byte_val_of_Z (z : Z) : 0 <= z < 256 -> byte_val (byte_of_Z z) = z.
Proof.
  intros Hz. unfold byte_of_Z, byte_val. rewrite Z.mod_small by assumption.
  rewrite to_N_byte_of_N by lia. lia.
Qed.

Lemma byte_of_Z_low (a v : Z) : byte_of_Z (a * 256 + v) = byte_of_Z v.
Proof.
  unfold byte_of_Z. now rewrite Z.add_comm, Z.mod_add by lia.
Qed.

Lemma from_bytes_fold (bs : bytes) (acc : Z) :
  fold_left (fun a x => a * 256 + byte_val x) bs acc
  = acc * 256 ^ len bs + int_from_bytes_big bs.
Proof.
  unfold int_from_bytes_big, len. revert acc.
  induction bs as [| b bs IH]; intros acc.
  - cbn. lia.
  - cbn [fold_left List.length]. rewrite IH, (IH (0 * 256 + _)).
    rewrite Nat2Z.inj_succ, Z.pow_succ_r by lia. lia.
Qed.

Lemma from_bytes_snoc (bs : bytes) (b : byte) :
  int_from_bytes_big (bs ++ [b]) = int_from_bytes_big bs * 256 + byte_val b.
Proof.
  unfold int_from_bytes_big at 1. rewrite fold_left_app. reflexivity.
Qed.

Lemma from_bytes_range (bs : bytes) :
  0 <= int_from_bytes_big bs < 2 ^ Z.of_nat (8 * List.length bs).
Proof.
  induction bs as [| b bs IH] using rev_ind.
  - cbn. lia.
  - rewrite from_bytes_snoc, length_app. cbn [List.length].
    replace (Z.of_nat (8 * (List.length bs + 1)))
      with (Z.of_nat (8 * List.length bs) + 8) by lia.
    rewrite Z.pow_add_r by lia. change (2 ^ 8) with 256.
    pose proof (byte_val_range b). lia.
Qed.

(** [int.from_bytes(b, 'big')] written on [8 * len(b)] bits shows the
    octets of [b] one after the other. *)
Lemma from_bytes_bits (bs : bytes) :
  be_bits (8 * List.length bs) (int_from_bytes_big bs) = bytes_bits bs.
Proof.
  induction bs as [| b bs IH] using rev_ind; [reflexivity |].
  rewrite from_bytes_snoc, length_app. cbn [List.length].
  replace (8 * (List.length bs + 1))%nat with (8 * List.length bs + 8)%nat by lia.
  change 256 with (2 ^ Z.of_nat 8).
  rewrite be_bits_app by apply byte_val_range.
  rewrite IH. unfold bytes_bits. rewrite flat_map_app. cbn [flat_map].
  now rewrite app_nil_r.
Qed.

Lemma be_bytes_length (n : nat) : forall z, List.length (be_bytes n z) = n.
Proof.
  induction n; intros z; cbn [be_bytes]; [reflexivity |].
  rewrite length_app, IHn. cbn. lia.
Qed.

Lemma le_bytes_length (n : nat) : forall z, List.length (le_bytes n z) = n.
Proof.
  induction n; intros z; cbn [le_bytes List.length]; [reflexivity |].
  now rewrite IHn.
Qed.

(** [int.from_bytes(b, 'big').to_bytes(len(b), 'big')] is [b]. *)
Lemma be_bytes_from_bytes (bs : bytes) :
  be_bytes (List.length bs) (int_from_bytes_big bs) = bs.
Proof.
  induction bs as [| b bs IH] using rev_ind; [reflexivity |].
  rewrite from_bytes_snoc, length_app, Nat.add_comm.
  cbn [List.length Nat.add be_bytes].
  rewrite byte_of_Z_low, byte_of_Z_val. f_equal.
  pose proof (byte_val_range b).
  replace ((int_from_bytes_big bs * 256 + byte_val b) / 256)
    with (int_from_bytes_big bs)
    by (apply Z.div_unique with (byte_val b); lia).
  exact IH.
Qed.

Lemma bytes_bits_length (bs : bytes) :
  List.length (bytes_bits bs) = (8 * List.length bs)%nat.
Proof.
  unfold bytes_bits. induction bs as [| b bs IH]; [reflexivity |].
  cbn [flat_map List.length]. rewrite length_app, be_bits_length, IH. lia.
Qed.

Lemma bytes_bits_chunks (bs : bytes) :
  chunks 8 (bytes_bits bs) = List.map (fun x => be_bits 8 (byte_val x)) bs.
Proof.
  unfold bytes_bits. rewrite flat_map_concat_map.
  apply chunks_concat; [lia |].
  apply Forall_map, Forall_forall. intros x _. apply be_bits_length.
Qed.

(** Packing the bits of an octet sequence gives the sequence back. *)
Lemma bits_bytes_bits (bs : bytes) : bits_bytes (bytes_bits bs) = bs.
Proof.
  unfold bits_bytes. rewrite bytes_bits_chunks, map_map.
  rewrite <- (map_id bs) at 2. apply map_ext. intros x.
  rewrite bits_value_be_bits by apply byte_val_range.
  apply byte_of_Z_val.
Qed.

Lemma chunks_snoc {A : Type} (n k : nat) (l g : list A) :
  (0 < n)%nat -> List.length l = (k * n)%nat -> List.length g = n ->
  chunks n (l ++ g) = chunks n l ++ [g].
Proof.
  intros Hn Hl Hg.
  destruct (chunks_whole n Hn k l Hl) as [_ Hall].
  rewrite <- (concat_chunks n l Hn) at 1.
  replace (List.concat (chunks n l) ++ g)
    with (List.concat (chunks n l ++ [g]))
    by (rewrite concat_app; cbn; now rewrite app_nil_r).
  apply chunks_concat; [assumption |].
  apply Forall_app. split; [assumption | constructor; auto].
Qed.

(** Writing the value of a bit string on [len/8] octets packs its bits. *)
Lemma be_bytes_bits_value (n : nat) :
  forall bs, List.length bs = (n * 8)%nat ->
             be_bytes n (bits_value bs) = bits_bytes bs.
Proof.
  induction n as [| n IH]; intros bs Hbs.
  - destruct bs; [reflexivity | cbn in Hbs; lia].
  - rewrite <- (firstn_skipn (n * 8) bs).
    set (hi := firstn (n * 8) bs). set (lo := skipn (n * 8) bs).
    assert (Hhi : List.length hi = (n * 8)%nat)
      by (unfold hi; rewrite length_firstn; lia).
    assert (Hlo : List.length lo = 8%nat)
      by (unfold lo; rewrite length_skipn; lia).
    rewrite bits_value_app, Hlo. change (2 ^ Z.of_nat 8) with 256.
    cbn [be_bytes]. rewrite byte_of_Z_low.
    unfold bits_bytes. rewrite (chunks_snoc 8 n) by (assumption || lia).
    rewrite map_app. cbn [List.map]. f_equal.
    pose proof (bits_value_range lo) as R. rewrite Hlo in R.
    change (2 ^ Z.of_nat 8) with 256 in R.
    replace ((bits_value hi * 256 + bits_value lo) / 256) with (bits_value hi)
      by (apply Z.div_unique with (bits_value lo); lia).
    apply IH. assumption.
Qed.

(** ** [strip], [split] and [join] *)

Lemma split_scan_lstrip (s : str) : split_scan [] (lstrip s) = split_scan [] s.
Proof.
  induction s as [| c s IH]; [reflexivity |].
  cbn [lstrip split_scan]. destruct (isspace c) eqn:E; [assumption |].
  cbn [split_scan]. now rewrite E.
Qed.

Lemma split_scan_space_end (s : str) (c : N) :
  isspace c = true ->
  forall cur, split_scan cur (s ++ [c]) = split_scan cur s.
Proof.
  intros Hc. induction s as [| x s IH]; intros cur.
  - cbn [app split_scan]. rewrite Hc. now destruct cur.
  - cbn [app split_scan]. destruct (isspace x); [| apply IH].
    destruct cur; now rewrite IH.
Qed.

Lemma lstrip_decompose (s : str) :
  exists ws, s = ws ++ lstrip s /\ Forall (fun c => isspace c = true) ws.
Proof.
  induction s as [| c s (ws & E & H)].
  - exists []. split; [reflexivity | constructor].
  - cbn [lstrip]. destruct (isspace c) eqn:Ec.
    + exists (c :: ws). split; [cbn; now f_equal | now constructor].
    + exists []. split; [reflexivity | constructor].
Qed.

Lemma split_scan_spaces_end (ws : str) :
  Forall (fun c => isspace c = true) ws ->
  forall s cur, split_scan cur (s ++ ws) = split_scan cur s.
Proof.
  induction ws as [| c ws IH] using rev_ind; intros H s cur.
  - now rewrite app_nil_r.
  - apply Forall_app in H. destruct H as [H1 H2]. inv H2.
    rewrite app_assoc, split_scan_space_end by assumption. now apply IH.
Qed.

Lemma split_rstrip (s : str) : split (rstrip s) = split s.
Proof.
  unfold split, rstrip.
  destruct (lstrip_decompose (rev s)) as (ws & E & H).
  apply (f_equal (@rev N)) in E. rewrite rev_involutive, rev_app_distr in E.
  rewrite E at 2. symmetry. apply split_scan_spaces_end.
  now apply Forall_rev.
Qed.

(** Stripping before splitting changes nothing. *)
Lemma split_strip (s : str) : split (strip s) = split s.
Proof.
  unfold strip. rewrite split_rstrip. apply split_scan_lstrip.
Qed.

Lemma is_word_spec (w : str) :
  is_word w = true <-> w <> [] /\ Forall (fun c => isspace c = false) w.
Proof.
  unfold is_word. rewrite andb_true_iff, negb_true_iff, str_eqb_neq.
  rewrite forallb_forall, Forall_forall.
  split; intros [H1 H2]; (split; [assumption |]); intros c Hc;
    specialize (H2 c Hc); now destruct (isspace c).
Qed.

Lemma split_scan_word (w : str) :
  Forall (fun c => isspace c = false) w ->
  forall cur rest, split_scan cur (w ++ rest) = split_scan (rev w ++ cur) rest.
Proof.
  induction 1 as [| c w Hc _ IH]; intros cur rest; [reflexivity |].
  cbn [app split_scan rev]. rewrite Hc, IH, <- app_assoc. reflexivity.
Qed.

(** Words joined by single spaces split back into the same words. *)
Lemma split_join (ws : list str) :
  Forall (fun w => is_word w = true) ws -> split (join (lit " ") ws) = ws.
Proof.
  unfold split. induction 1 as [| w ws Hw Hws IH]; [reflexivity |].
  apply is_word_spec in Hw. destruct Hw as [Hne Hsp].
  assert (Hr : rev w <> []).
  { intros E. apply Hne. apply (f_equal (@rev N)) in E.
    now rewrite rev_involutive in E. }
  destruct ws as [| w' ws].
  - cbn [join]. rewrite <- (app_nil_r w) at 1.
    rewrite split_scan_word by assumption. rewrite app_nil_r. cbn [split_scan].
    destruct (rev w) eqn:E; [contradiction |]. rewrite <- E.
    now rewrite rev_involutive.
  - cbn [join] in *. rewrite split_scan_word by assumption.
    rewrite app_nil_r. change (lit " " ++ ?x) with (32%N :: x).
    cbn [split_scan]. change (isspace 32) with true. cbn iota.
    destruct (rev w) eqn:E; [contradiction |]. rewrite <- E.
    rewrite rev_involutive. f_equal. exact IH.
Qed.

(** ** Dictionaries *)

Lemma dict_get_set {V : Type} (d : dict V) (k k' : str) (v : V) :
  dict_get (dict_set d k v) k'
  = if str_eqb k k' then Ok v else dict_get d k'.
Proof.
  induction d as [| [k0 v0] d IH]; [reflexivity |].
  cbn [dict_set]. destruct (str_eqb k0 k) eqn:E0.
  - apply str_eqb_eq in E0. subst k0. cbn [dict_get].
    now destruct (str_eqb k k').
  - cbn [dict_get]. rewrite IH.
    destruct (str_eqb k0 k') eqn:E1; [| reflexivity].
    apply str_eqb_eq in E1. subst k'. now rewrite (proj2 (str_eqb_neq k k0))
      by (apply str_eqb_neq in E0; congruence).
Qed.

Lemma dict_get_raises {V : Type} (d : dict V) (k : str) (e : exn) :
  dict_get d k = Raise e -> e = KeyError.
Proof.
  induction d as [| [k0 v0] d IH]; cbn [dict_get]; intros H.
  - congruence.
  - destruct (str_eqb k0 k); [discriminate | auto].
Qed.

Definition dict_build (pairs : list (Z * str)) (d : dict Z) : dict Z :=
  fold_left (fun d iw => dict_set d (snd iw) (fst iw)) pairs d.

Lemma dict_build_other (pairs : list (Z * str)) (k : str) :
  ~ In k (List.map snd pairs) ->
  forall d, dict_get (dict_build pairs d) k = dict_get d k.
Proof.
  unfold dict_build. induction pairs as [| [i0 k0] pairs IH]; intros H d;
    [reflexivity |].
  cbn [fold_left fst snd]. rewrite IH by (intros X; apply H; now right).
  rewrite dict_get_set.
  rewrite (proj2 (str_eqb_neq k0 k)); [reflexivity |].
  intros ->. apply H. now left.
Qed.

Lemma dict_build_found (pairs : list (Z * str)) (i : Z) (k : str) :
  NoDup (List.map snd pairs) -> In (i, k) pairs ->
  forall d, dict_get (dict_build pairs d) k = Ok i.
Proof.
  induction pairs as [| [i0 k0] pairs IH]; intros Hnd Hin d; [contradiction |].
  cbn [List.map snd] in Hnd. inv Hnd.
  change (dict_build ((i0, k0) :: pairs) d)
    with (dict_build pairs (dict_set d k0 i0)).
  destruct Hin as [E | Hin].
  - inv E. rewrite dict_build_other by assumption.
    now rewrite dict_get_set, str_eqb_refl.
  - now apply IH.
Qed.

Lemma enumerate_from_In {A : Type} (l : list A) :
  forall (a n : nat) (x : A),
    nth_error l n = Some x ->
    In (Z.of_nat (a + n), x)
       (combine (List.map Z.of_nat (seq a (List.length l))) l).
Proof.
  induction l as [| y l IH]; intros a n x H.
  - destruct n; discriminate.
  - cbn [List.length seq List.map combine]. destruct n as [| n].
    + cbn in H. inv H. left. f_equal. f_equal. lia.
    + right. replace (a + S n)%nat with (S a + n)%nat by lia.
      now apply IH.
Qed.

Lemma enumerate_In {A : Type} (l : list A) (n : nat) (x : A) :
  nth_error l n = Some x -> In (Z.of_nat n, x) (enumerate l).
Proof. intros H. apply (enumerate_from_In l 0 n x H). Qed.

Lemma enumerate_snd {A : Type} (l : list A) : List.map snd (enumerate l) = l.
Proof.
  unfold enumerate. generalize 0%nat.
  induction l as [| y l IH]; intros a; [reflexivity |].
  cbn [List.length seq List.map combine snd]. now rewrite IH.
Qed.

(** ** The word list and its index *)

Lemma distinct_NoDup (l : list str) : distinct l = true -> NoDup l.
Proof.
  induction l as [| w l IH]; intros H; [constructor |].
  cbn [distinct] in H. apply andb_true_iff in H. destruct H as [H1 H2].
  constructor; [| auto].
  intros Hin. apply negb_true_iff in H1.
  assert (existsb (str_eqb w) l = true); [| congruence].
  apply existsb_exists. exists w. split; [assumption | apply str_eqb_refl].
Qed.

Lemma wordlist_ok_spec (wl : list str) :
  wordlist_ok wl = true ->
  List.length wl = 2048%nat /\ NoDup wl /\ Forall (fun w => is_word w = true) wl.
Proof.
  unfold wordlist_ok. rewrite !andb_true_iff.
  intros [[H1 H2] H3]. repeat split.
  - now apply Nat.eqb_eq.
  - now apply distinct_NoDup.
  - apply Forall_forall. now apply forallb_forall.
Qed.

Lemma index_from_nth (l : list str) :
  NoDup l ->
  forall (n : nat) (w : str) (i : Z),
    nth_error l n = Some w -> index_from i l w = Some (i + Z.of_nat n).
Proof.
  induction 1 as [| x l Hx Hnd IH]; intros n w i Hn.
  - destruct n; discriminate.
  - cbn [index_from]. destruct n as [| n].
    + cbn in Hn. inv Hn. rewrite str_eqb_refl. f_equal. lia.
    + cbn [nth_error] in Hn.
      rewrite (proj2 (str_eqb_neq x w)).
      * rewrite (IH n w (i + 1) Hn). f_equal. lia.
      * intros ->. apply Hx. eapply nth_error_In. eassumption.
Qed.

Lemma index_from_some (l : list str) :
  forall (w : str) (i j : Z),
    index_from i l w = Some j ->
    exists n : nat, j = i + Z.of_nat n /\ nth_error l n = Some w.
Proof.
  induction l as [| x l IH]; intros w i j H; [discriminate |].
  cbn [index_from] in H. destruct (str_eqb x w) eqn:E.
  - inv H. apply str_eqb_eq in E. subst. exists 0%nat. split; [lia | reflexivity].
  - destruct (IH _ _ _ H) as (n & -> & Hn). exists (S n). split; [lia | assumption].
Qed.

Lemma index_from_none (l : list str) :
  forall (w : str) (i : Z), index_from i l w = None <-> ~ In w l.
Proof.
  induction l as [| x l IH]; intros w i; cbn [index_from].
  - split; [intros _ [] | reflexivity].
  - destruct (str_eqb x w) eqn:E.
    + apply str_eqb_eq in E. subst. split; [discriminate |].
      intros H. exfalso. apply H. now left.
    + apply str_eqb_neq in E. rewrite IH. cbn [In]. tauto.
Qed.

Section Wordlist.

Variable wordlist : list str.
Hypothesis wordlist_good : wordlist_ok wordlist = true.

Lemma wordlist_length : List.length wordlist = 2048%nat.
Proof. apply (wordlist_ok_spec wordlist wordlist_good). Qed.

Lemma wordlist_NoDup : NoDup wordlist.
Proof. apply (wordlist_ok_spec wordlist wordlist_good). Qed.

Lemma wordlist_words : Forall (fun w => is_word w = true) wordlist.
Proof. apply (wordlist_ok_spec wordlist wordlist_good). Qed.

Lemma index_of_range (w : str) (i : Z) :
  index_of wordlist w = Some i ->
  0 <= i < 2048 /\ nth_error wordlist (Z.to_nat i) = Some w.
Proof.
  intros H. destruct (index_from_some _ _ _ _ H) as (n & -> & Hn).
  assert (n < List.length wordlist)%nat
    by (apply nth_error_Some; congruence).
  rewrite wordlist_length in *. rewrite Z.add_0_l, Nat2Z.id.
  split; [lia | assumption].
Qed.

Lemma index_of_nth (n : nat) (w : str) :
  nth_error wordlist n = Some w -> index_of wordlist w = Some (Z.of_nat n).
Proof.
  intros H. unfold index_of.
  now rewrite (index_from_nth wordlist wordlist_NoDup n w 0 H).
Qed.

(** The dictionary built by [__init__] is the index of the word list. *)
Lemma wordlist_dict_index (w : str) :
  dict_get (wordlist_dict wordlist) w
  = match index_of wordlist w with
    | Some i => Ok i
    | None => Raise KeyError
    end.
Proof.
  change (wordlist_dict wordlist) with (dict_build (enumerate wordlist) []).
  destruct (index_of wordlist w) as [i |] eqn:E.
  - destruct (index_of_range w i E) as [Hi Hn].
    apply dict_build_found.
    + rewrite enumerate_snd. apply wordlist_NoDup.
    + rewrite <- (Z2Nat.id i) by lia. now apply enumerate_In.
  - apply index_from_none in E.
    rewrite dict_build_other by (now rewrite enumerate_snd). reflexivity.
Qed.

Lemma traverse_wordlist_dict (words : list str) :
  traverse (dict_get (wordlist_dict wordlist)) words
  = match all_some (List.map (index_of wordlist) words) with
    | Some indices => Ok indices
    | None => Raise KeyError
    end.
Proof.
  induction words as [| w words IH]; [reflexivity |].
  cbn [traverse List.map all_some]. rewrite wordlist_dict_index, IH.
  destruct (index_of wordlist w); [| reflexivity].
  cbn [bind]. now destruct (all_some (List.map (index_of wordlist) words)).
Qed.

Lemma all_some_Forall2 {A B : Type} (f : A -> option B) (l : list A) (r : list B) :
  all_some (List.map f l) = Some r <-> Forall2 (fun x y => f x = Some y) l r.
Proof.
  revert r. induction l as [| x l IH]; intros r; cbn [List.map all_some].
  - split; [intros H; inv H; constructor | intros H; now inv H].
  - destruct (f x) as [y |] eqn:E.
    + destruct (all_some (List.map f l)) as [ys |] eqn:E'.
      * split.
        -- intros H. inv H. constructor; [assumption | now apply IH].
        -- intros H. inv H. apply IH in H4. congruence.
      * split; [discriminate |]. intros H. inv H. apply IH in H4. discriminate.
    + split; [discriminate |]. intros H. inv H. congruence.
Qed.

Lemma all_some_none {A B : Type} (f : A -> option B) (l : list A) :
  (exists x, In x l /\ f x = None) -> all_some (List.map f l) = None.
Proof.
  intros (x & Hin & Hx). induction l as [| y l IH]; [contradiction |].
  cbn [List.map all_some]. destruct Hin as [-> | Hin].
  - now rewrite Hx.
  - rewrite (IH Hin). now destruct (f y).
Qed.

End Wordlist.

(** ** Lengths of digests and derived keys *)

Lemma sha256_length (msg : bytes) : List.length (Hash.sha256 msg) = 32%nat.
Proof.
  unfold Hash.sha256, Hash.SHA256.sha256.
  generalize (fold_left Hash.SHA256.compress
                (chunks 64 (msg ++ Hash.SHA256.padding (List.length msg)))
                Hash.SHA256.H0).
  intros s. reflexivity.
Qed.

Lemma sha512_finish_length (s : Hash.SHA512.state) (fed : nat) (rest : bytes) :
  List.length (Hash.SHA512.finish s fed rest) = 64%nat.
Proof.
  unfold Hash.SHA512.finish.
  generalize (fold_left Hash.SHA512.compress
                (chunks 128 (rest ++ Hash.SHA512.padding (fed + List.length rest)))
                s).
  intros t. reflexivity.
Qed.

Lemma sha512_length (msg : bytes) : List.length (Hash.sha512 msg) = 64%nat.
Proof. apply sha512_finish_length. Qed.

Lemma hmac_sha512_length (key msg : bytes) :
  List.length (Hash.hmac_sha512 key msg) = 64%nat.
Proof. apply sha512_length. Qed.

Lemma xor_bytes_length (a b : bytes) :
  List.length a = List.length b ->
  List.length (Hash.xor_bytes a b) = List.length a.
Proof.
  intros H. unfold Hash.xor_bytes. rewrite length_map, length_combine. lia.
Qed.

Section PBKDF2.

Variable prf : bytes -> bytes.
Variable hlen : nat.
Hypothesis prf_length : forall m, List.length (prf m) = hlen.

Lemma pbkdf2_rounds_length (rounds : nat) :
  forall u acc, List.length acc = hlen ->
                List.length (Hash.pbkdf2_rounds prf rounds u acc) = hlen.
Proof.
  induction rounds as [| rounds IH]; intros u acc Hacc; [assumption |].
  cbn [Hash.pbkdf2_rounds]. apply IH.
  rewrite xor_bytes_length; [assumption | now rewrite prf_length].
Qed.

Lemma pbkdf2_block_length (salt : bytes) (c i : nat) :
  List.length (Hash.pbkdf2_block prf salt c i) = hlen.
Proof. unfold Hash.pbkdf2_block. apply pbkdf2_rounds_length, prf_length. Qed.

(** One block is enough when the key is as long as the digest. *)
Lemma pbkdf2_one_block (salt : bytes) (c : nat) :
  (0 < hlen)%nat ->
  Hash.pbkdf2 prf hlen salt c hlen = Hash.pbkdf2_block prf salt c 1.
Proof.
  intros Hpos. unfold Hash.pbkdf2.
  replace ((hlen + hlen - 1) / hlen)%nat with 1%nat.
  - cbn [seq flat_map]. rewrite app_nil_r.
    apply firstn_all2. now rewrite pbkdf2_block_length.
  - apply Nat.div_unique with (hlen - 1)%nat; lia.
Qed.

End PBKDF2.

Lemma pbkdf2_hmac_sha512_length (password salt : bytes) (iterations : Z) :
  List.length (Hash.pbkdf2_hmac_sha512 password salt iterations) = 64%nat.
Proof.
  unfold Hash.pbkdf2_hmac_sha512.
  rewrite (pbkdf2_one_block _ 64) by (apply hmac_sha512_length || lia).
  apply pbkdf2_block_length, hmac_sha512_length.
Qed.

(** ** The keyed form of HMAC computes HMAC *)

Lemma fold_left_cons {A B : Type} (f : A -> B -> A) (x : B) (l : list B) (a : A) :
  fold_left f (x :: l) a = fold_left f l (f a x).
Proof. reflexivity. Qed.

Lemma sha512_absorb_block (block rest : bytes) :
  List.length block = 128%nat ->
  Hash.sha512 (block ++ rest)
  = Hash.SHA512.finish (Hash.SHA512.compress Hash.SHA512.H0 block) 128 rest.
Proof.
  intros Hb. unfold Hash.sha512, Hash.SHA512.sha512, Hash.SHA512.finish.
  rewrite <- app_assoc, chunks_app by (assumption || lia).
  rewrite fold_left_cons, length_app, Hb, Nat.add_0_l. reflexivity.
Qed.

Lemma hmac_key_block_length (key : bytes) :
  List.length (Hash.hmac_key_block key) = 128%nat.
Proof.
  unfold Hash.hmac_key_block.
  destruct (128 <? List.length key)%nat eqn:E.
  - rewrite length_app, repeat_length, sha512_length. reflexivity.
  - apply Nat.ltb_ge in E. rewrite length_app, repeat_length. lia.
Qed.

Lemma hmac_sha512_keyed_eq (key msg : bytes) :
  Hash.hmac_sha512 key msg
  = Hash.hmac_sha512_keyed
      (Hash.SHA512.compress Hash.SHA512.H0 (Hash.ipad key))
      (Hash.SHA512.compress Hash.SHA512.H0 (Hash.opad key)) msg.
Proof.
  unfold Hash.hmac_sha512, Hash.hmac_sha512_keyed.
  rewrite !sha512_absorb_block;
    [reflexivity | unfold Hash.ipad | unfold Hash.opad];
    rewrite length_map; apply hmac_key_block_length.
Qed.

Lemma pbkdf2_rounds_ext (f g : bytes -> bytes) :
  (forall m, f m = g m) ->
  forall rounds u acc,
    Hash.pbkdf2_rounds f rounds u acc = Hash.pbkdf2_rounds g rounds u acc.
Proof.
  intros E. induction rounds as [| r IH]; intros u acc; [reflexivity |].
  cbn [Hash.pbkdf2_rounds]. rewrite E. apply IH.
Qed.

Lemma pbkdf2_ext (f g : bytes -> bytes) :
  (forall m, f m = g m) ->
  forall hlen salt c dklen,
    Hash.pbkdf2 f hlen salt c dklen = Hash.pbkdf2 g hlen salt c dklen.
Proof.
  intros E hlen salt c dklen. unfold Hash.pbkdf2. f_equal.
  apply flat_map_ext. intros i. unfold Hash.pbkdf2_block. rewrite E.
  now apply pbkdf2_rounds_ext.
Qed.

Lemma pbkdf2_hmac_sha512_keyed_eq (password salt : bytes) (iterations : Z) :
  Hash.pbkdf2_hmac_sha512 password salt iterations
  = Hash.pbkdf2_hmac_sha512_keyed password salt iterations.
Proof.
  unfold Hash.pbkdf2_hmac_sha512, Hash.pbkdf2_hmac_sha512_keyed.
  apply pbkdf2_ext. intros m. apply hmac_sha512_keyed_eq.
Qed.

Lemma secret_to_public_length (secret : bytes) :
  List.length (Ed25519.secret_to_public secret) = 32%nat.
Proof. unfold Ed25519.secret_to_public, Ed25519.point_compress. apply le_bytes_length. Qed.

(** ** The codec against its specification *)

Lemma chunks_fuel_map {A B : Type} (f : A -> B) (n : nat) :
  forall (fuel : nat) (l : list A),
    chunks_fuel fuel n (List.map f l)
    = List.map (List.map f) (chunks_fuel fuel n l).
Proof.
  induction fuel as [| fuel IH]; intros l; [reflexivity |].
  destruct l as [| x l]; [reflexivity |].
  change (chunks_fuel (S fuel) n (List.map f (x :: l)))
    with (firstn n (List.map f (x :: l))
            :: chunks_fuel fuel n (skipn n (List.map f (x :: l)))).
  rewrite firstn_map, skipn_map, IH. reflexivity.
Qed.

Lemma chunks_map {A B : Type} (f : A -> B) (n : nat) (l : list A) :
  chunks n (List.map f l) = List.map (List.map f) (chunks n l).
Proof. unfold chunks. rewrite length_map. apply chunks_fuel_map. Qed.

Lemma getitem_nth {A : Type} (l : list A) (i : Z) (d : A) :
  0 <= i < len l -> getitem l i = Ok (nth (Z.to_nat i) l d).
Proof.
  intros Hi. unfold getitem, len in *.
  destruct (i <? 0) eqn:E; [apply Z.ltb_lt in E; lia |]. rewrite E.
  destruct (nth_error l (Z.to_nat i)) as [x |] eqn:En.
  - f_equal. symmetry. now apply nth_error_nth.
  - apply nth_error_None in En. lia.
Qed.

Lemma mem_of_nat (n : nat) (l : list nat) :
  mem (Z.of_nat n) (List.map Z.of_nat l) = existsb (Nat.eqb n) l.
Proof.
  unfold mem. induction l as [| x l IH]; [reflexivity |].
  cbn [List.map existsb]. rewrite IH. f_equal.
  destruct (Nat.eqb_spec n x) as [-> | Hne].
  - apply Z.eqb_refl.
  - apply Z.eqb_neq. lia.
Qed.

Lemma entropy_length_cases (n : nat) :
  mem (Z.of_nat n) [16; 20; 24; 28; 32] = true ->
  exists k : nat, n = (4 * k)%nat /\ (4 <= k <= 8)%nat.
Proof.
  intros H. apply mem_In in H. cbn [In] in H.
  destruct H as [H | [H | [H | [H | [H | []]]]]];
    [exists 4%nat | exists 5%nat | exists 6%nat | exists 7%nat | exists 8%nat]; lia.
Qed.

Lemma word_count_cases (n : nat) :
  existsb (Nat.eqb n) [12; 15; 18; 21; 24]%nat = true ->
  exists k : nat, n = (3 * k)%nat /\ (4 <= k <= 8)%nat.
Proof.
  intros H. apply existsb_exists in H. destruct H as (x & Hx & E).
  apply Nat.eqb_eq in E. subst x. cbn [In] in Hx.
  destruct Hx as [H | [H | [H | [H | [H | []]]]]];
    [exists 4%nat | exists 5%nat | exists 6%nat | exists 7%nat | exists 8%nat]; lia.
Qed.

(** [bin(int.from_bytes(b, 'big'))[2:].zfill(len(b) * 8)] spells the bits
    of [b]. *)
Lemma bytes_text (b : bytes) (width : Z) :
  b <> [] -> width = len b * 8 ->
  zfill (slice (bin (int_from_bytes_big b)) (Some 2) None) width
  = bitstr (bytes_bits b).
Proof.
  intros Hb ->. unfold len.
  replace (Z.of_nat (List.length b) * 8) with (Z.of_nat (8 * List.length b)) by lia.
  rewrite zfill_bin.
  - now rewrite from_bytes_bits.
  - apply from_bytes_range.
  - destruct b; [contradiction | cbn [List.length]; lia].
Qed.

Lemma indices_text (indices : list Z) :
  Forall (fun i => 0 <= i < 2048) indices ->
  List.concat
    (List.map (fun idx => zfill (slice (bin idx) (Some 2) None) 11) indices)
  = bitstr (flat_map (be_bits 11) indices).
Proof.
  induction 1 as [| i indices Hi _ IH]; [reflexivity |].
  cbn [List.map List.concat flat_map]. rewrite bitstr_app, IH. f_equal.
  change 11 with (Z.of_nat 11). apply zfill_bin; [| lia].
  change (2 ^ Z.of_nat 11) with 2048. assumption.
Qed.

Lemma flat_map_be_bits_length (w : nat) (l : list Z) :
  List.length (flat_map (be_bits w) l) = (List.length l * w)%nat.
Proof.
  induction l as [| x l IH]; [reflexivity |].
  cbn [flat_map List.length]. rewrite length_app, be_bits_length, IH. lia.
Qed.

Section Codec.

Variable wordlist : list str.
Hypothesis wordlist_good : wordlist_ok wordlist = true.

Lemma lookup_groups (gs : list (list bool)) :
  Forall (fun g => List.length g = 11%nat) gs ->
  traverse (fun t => idx <- int_base2 t ;; getitem wordlist idx)
           (List.map bitstr gs)
  = Ok (List.map (spec_word wordlist) gs).
Proof.
  induction 1 as [| g gs Hg _ IH]; [reflexivity |].
  cbn [List.map traverse]. rewrite IH.
  rewrite int_base2_bitstr by (intros ->; discriminate).
  cbn [bind]. unfold spec_word.
  rewrite (getitem_nth wordlist _ []); [reflexivity |].
  pose proof (bits_value_range g) as R. rewrite Hg in R.
  change (2 ^ Z.of_nat 11) with 2048 in R.
  unfold len. rewrite (wordlist_length wordlist wordlist_good). lia.
Qed.

Lemma spec_bits_length (entropy : bytes) (k : nat) :
  List.length entropy = (4 * k)%nat -> (k <= 8)%nat ->
  List.length (bytes_bits entropy ++ spec_checksum entropy) = (3 * k * 11)%nat
  /\ List.length (spec_checksum entropy) = k.
Proof.
  intros Hk Hk8. unfold spec_checksum.
  rewrite length_app, length_firstn, !bytes_bits_length, sha256_length, Hk.
  replace (4 * k * 8 / 32)%nat with k
    by (apply Nat.div_unique with 0%nat; lia).
  lia.
Qed.

(** The encoder computes the encoding of the specification. *)
Lemma entropy_to_mnemonic_refines (entropy : bytes) :
  mem (len entropy) [16; 20; 24; 28; 32] = true ->
  _entropy_to_mnemonic wordlist entropy
  = Ok (join (lit " ") (spec_words wordlist entropy)).
Proof.
  intros Hmem. unfold _entropy_to_mnemonic. rewrite Hmem. cbn [negb].
  destruct (entropy_length_cases _ Hmem) as (k & Hk & Hk').
  assert (Hne : entropy <> []) by (intros ->; cbn in Hk; lia).
  rewrite (bytes_text entropy) by auto.
  rewrite (bytes_text (Hash.sha256 entropy))
    by (try (unfold len; rewrite sha256_length; reflexivity);
        intros E; apply (f_equal (@List.length byte)) in E;
        rewrite sha256_length in E; discriminate).
  rewrite slice_to by (unfold len; apply Z.div_pos; lia).
  rewrite bitstr_firstn, <- bitstr_app.
  replace (Z.to_nat (len entropy / 4)) with (List.length entropy * 8 / 32)%nat.
  2:{ unfold len. rewrite Hk.
      replace (4 * k * 8 / 32)%nat with k
        by (apply Nat.div_unique with 0%nat; lia).
      replace (Z.of_nat (4 * k) / 4) with (Z.of_nat k)
        by (apply Z.div_unique with 0; lia).
      lia. }
  fold (spec_checksum entropy).
  set (B := bytes_bits entropy ++ spec_checksum entropy).
  destruct (spec_bits_length entropy k Hk (proj2 Hk')) as [HB _]. fold B in HB.
  assert (Et :
    traverse
      (fun i =>
         idx <- int_base2 (slice (bitstr B) (Some i) (Some (i + 11))) ;;
         getitem wordlist idx)
      (range 0 (len (bitstr B)) 11)
    = Ok (List.map (spec_word wordlist) (chunks 11 B))).
  { etransitivity.
    - exact (traverse_map
               (fun t => idx <- int_base2 t ;; getitem wordlist idx)
               (fun i => slice (bitstr B) (Some i) (Some (i + Z.of_nat 11)))
               (range 0 (len (bitstr B)) (Z.of_nat 11))).
    - pose proof (range_slices 11 (bitstr B) ltac:(lia)) as Er.
      pose proof (chunks_map (fun b : bool => if b then chr1 else chr0) 11 B) as Ec.
      destruct (chunks_whole 11 ltac:(lia) (3 * k) B HB) as [_ Hall].
      etransitivity;
        [exact (f_equal
                  (traverse (fun t => idx <- int_base2 t ;; getitem wordlist idx))
                  (eq_trans Er Ec)) |].
      exact (lookup_groups _ Hall). }
  rewrite Et. reflexivity.
Qed.

End Codec.

Section Validation.

Variable wordlist : list str.
Hypothesis wordlist_good : wordlist_ok wordlist = true.

Lemma pow_256 (n : nat) : 256 ^ Z.of_nat n = 2 ^ Z.of_nat (n * 8).
Proof.
  change 256 with (2 ^ 8). rewrite <- Z.pow_mul_r by lia. f_equal. lia.
Qed.

(** What the checker computes once every word has been found. *)
Lemma validate_tail (indices : list Z) (k : nat) :
  (4 <= k <= 8)%nat -> List.length indices = (3 * k)%nat ->
  Forall (fun i => 0 <= i < 2048) indices ->
  let bits := flat_map (be_bits 11) indices in
  let text := bitstr bits in
  (n <- int_base2 (slice text None (Some (- Z.of_nat k))) ;;
   entropy <- int_to_bytes_big n (len (slice text None (Some (- Z.of_nat k))) / 8) ;;
   Ok (str_eqb
         (slice text (Some (- Z.of_nat k)) None)
         (slice (zfill (slice (bin (int_from_bytes_big (Hash.sha256 entropy)))
                              (Some 2) None) 256)
                None (Some (Z.of_nat k)))))
  = Ok (bits_eqb
          (skipn (List.length bits - k) bits)
          (firstn k (bytes_bits
                       (Hash.sha256 (bits_bytes (firstn (List.length bits - k) bits)))))).
Proof.
  intros Hk Hlen Hall bits text.
  assert (Hbits : List.length bits = (33 * k)%nat)
    by (unfold bits; rewrite flat_map_be_bits_length, Hlen; lia).
  assert (Htext : len text = Z.of_nat (33 * k))
    by (unfold len, text; now rewrite bitstr_length, Hbits).
  rewrite slice_to_neg by lia. rewrite slice_from_neg by lia.
  unfold text. rewrite !Nat2Z.id, !bitstr_length, bitstr_firstn, bitstr_skipn.
  set (ebits := firstn (List.length bits - k) bits).
  assert (He : List.length ebits = (4 * k * 8)%nat)
    by (unfold ebits; rewrite length_firstn; lia).
  rewrite int_base2_bitstr
    by (intros E; rewrite E in He; cbn in He; lia).
  cbn [bind].
  assert (Hl : len (bitstr ebits) / 8 = Z.of_nat (4 * k)).
  { unfold len. rewrite bitstr_length, He.
    symmetry. apply Z.div_unique with 0; lia. }
  rewrite Hl. unfold int_to_bytes_big.
  destruct (Z.of_nat (4 * k) <? 0) eqn:E1; [apply Z.ltb_lt in E1; lia |].
  pose proof (bits_value_range ebits) as R. rewrite He in R.
  rewrite pow_256.
  destruct ((bits_value ebits <? 0) || (2 ^ Z.of_nat (4 * k * 8) <=? bits_value ebits))
    eqn:E2.
  { apply orb_true_iff in E2. destruct E2 as [E2 | E2];
      [apply Z.ltb_lt in E2 | apply Z.leb_le in E2]; lia. }
  cbn [bind]. rewrite Nat2Z.id.
  rewrite (be_bytes_bits_value (4 * k) ebits He).
  set (entropy := bits_bytes ebits).
  rewrite (bytes_text (Hash.sha256 entropy))
    by (try (unfold len; rewrite sha256_length; reflexivity);
        intros E; apply (f_equal (@List.length byte)) in E;
        rewrite sha256_length in E; discriminate).
  rewrite slice_to by lia. rewrite Nat2Z.id, bitstr_firstn.
  now rewrite bitstr_eqb.
Qed.

(** The checker computes the validation of the specification, and never
    raises. *)
Lemma validate_mnemonic_refines (mnemonic : str) :
  validate_mnemonic wordlist mnemonic = Ok (spec_validate wordlist mnemonic).
Proof.
  unfold validate_mnemonic, spec_validate. rewrite split_strip.
  set (words := split mnemonic).
  change [12; 15; 18; 21; 24] with (List.map Z.of_nat [12; 15; 18; 21; 24]%nat).
  unfold len at 1. rewrite mem_of_nat.
  destruct (existsb (Nat.eqb (List.length words)) [12; 15; 18; 21; 24]%nat) eqn:Hn;
    [| reflexivity].
  cbn [negb]. destruct (word_count_cases _ Hn) as (k & Hk & Hk').
  rewrite (traverse_wordlist_dict wordlist wordlist_good).
  destruct (all_some (List.map (index_of wordlist) words)) as [indices |] eqn:Ei;
    [| reflexivity].
  apply all_some_Forall2 in Ei.
  assert (Hlen : List.length indices = (3 * k)%nat)
    by (rewrite <- Hk; symmetry; eapply Forall2_length; eassumption).
  assert (Hall : Forall (fun i => 0 <= i < 2048) indices).
  { clear - Ei wordlist_good. induction Ei as [| w i ws js Hw _ IH]; constructor;
      [| assumption].
    apply (index_of_range wordlist wordlist_good w i Hw). }
  rewrite (indices_text indices Hall).
  assert (Hdiv : len words / 3 = Z.of_nat k)
    by (unfold len; rewrite Hk; symmetry; apply Z.div_unique with 0; lia).
  rewrite Hdiv.
  replace (List.length words / 3)%nat with k
    by (rewrite Hk; apply Nat.div_unique with 0%nat; lia).
  exact (validate_tail indices k Hk' Hlen Hall).
Qed.

End Validation.

(** ** Encoding then validating *)

Lemma be_bits_nth (w : nat) :
  forall (z : Z) (i : nat),
    (i < w)%nat ->
    nth i (be_bits w z) false = Z.testbit z (Z.of_nat (w - 1 - i)).
Proof.
  induction w as [| w IH]; intros z i Hi; [lia |].
  cbn [be_bits]. destruct (Nat.eq_dec i w) as [-> | Hne].
  - rewrite app_nth2 by (rewrite be_bits_length; lia).
    rewrite be_bits_length, Nat.sub_diag.
    replace (S w - 1 - w)%nat with 0%nat by lia. cbn [nth Z.of_nat].
    symmetry. apply Z.bit0_odd.
  - rewrite app_nth1 by (rewrite be_bits_length; lia).
    rewrite IH by lia.
    replace (Z.of_nat (S w - 1 - i)) with (Z.of_nat (w - 1 - i) + 1) by lia.
    change (z / 2) with (z / 2 ^ 1).
    now rewrite Z.div_pow2_bits by lia.
Qed.

Lemma firstn_exact {A : Type} (a b : list A) :
  firstn (List.length a) (a ++ b) = a.
Proof. induction a; cbn [List.length firstn app]; [now destruct b | now f_equal]. Qed.

Lemma skipn_exact {A : Type} (a b : list A) :
  skipn (List.length a) (a ++ b) = b.
Proof. induction a; cbn [List.length skipn app]; auto. Qed.

Section RoundTrip.

Variable wordlist : list str.
Hypothesis wordlist_good : wordlist_ok wordlist = true.

Lemma spec_groups_whole (entropy : bytes) (k : nat) :
  List.length entropy = (4 * k)%nat -> (k <= 8)%nat ->
  List.length (spec_groups entropy) = (3 * k)%nat /\
  Forall (fun g => List.length g = 11%nat) (spec_groups entropy).
Proof.
  intros Hk Hk8. unfold spec_groups.
  apply chunks_whole; [lia |]. now apply spec_bits_length.
Qed.

Lemma spec_word_in (g : list bool) :
  List.length g = 11%nat ->
  nth_error wordlist (Z.to_nat (bits_value g)) = Some (spec_word wordlist g).
Proof.
  intros Hg. unfold spec_word. apply nth_error_nth'.
  pose proof (bits_value_range g) as R. rewrite Hg in R.
  change (2 ^ Z.of_nat 11) with 2048 in R.
  rewrite (wordlist_length wordlist wordlist_good). lia.
Qed.

Lemma spec_words_are_words (entropy : bytes) (k : nat) :
  List.length entropy = (4 * k)%nat -> (k <= 8)%nat ->
  Forall (fun w => is_word w = true) (spec_words wordlist entropy).
Proof.
  intros Hk Hk8. destruct (spec_groups_whole entropy k Hk Hk8) as [_ Hall].
  unfold spec_words. apply Forall_map. revert Hall. apply Forall_impl.
  intros g Hg.
  pose proof (wordlist_words wordlist wordlist_good) as Hw.
  rewrite Forall_forall in Hw. apply Hw.
  eapply nth_error_In. apply spec_word_in. assumption.
Qed.

Lemma spec_words_indices (gs : list (list bool)) :
  Forall (fun g => List.length g = 11%nat) gs ->
  all_some (List.map (index_of wordlist) (List.map (spec_word wordlist) gs))
  = Some (List.map bits_value gs).
Proof.
  intros Hall. apply all_some_Forall2.
  induction Hall as [| g gs Hg _ IH]; cbn [List.map]; constructor;
    [| assumption].
  rewrite (index_of_nth wordlist wordlist_good _ _ (spec_word_in g Hg)).
  f_equal. apply Z2Nat.id. apply bits_value_range.
Qed.

Lemma groups_bits (gs : list (list bool)) :
  Forall (fun g => List.length g = 11%nat) gs ->
  flat_map (be_bits 11) (List.map bits_value gs) = List.concat gs.
Proof.
  induction 1 as [| g gs Hg _ IH]; [reflexivity |].
  cbn [List.map flat_map List.concat]. rewrite IH. f_equal.
  rewrite <- Hg. apply be_bits_bits_value.
Qed.

(** A mnemonic produced by the encoder passes the checksum test. *)
Lemma spec_validate_encoded (entropy : bytes) (k : nat) :
  List.length entropy = (4 * k)%nat -> (4 <= k <= 8)%nat ->
  spec_validate wordlist (join (lit " ") (spec_words wordlist entropy)) = true.
Proof.
  intros Hk Hk'. unfold spec_validate. cbv zeta.
  rewrite (split_join _ (spec_words_are_words entropy k Hk (proj2 Hk'))).
  destruct (spec_groups_whole entropy k Hk (proj2 Hk')) as [Hlen Hall].
  assert (Hn : List.length (spec_words wordlist entropy) = (3 * k)%nat)
    by (unfold spec_words; now rewrite length_map).
  rewrite !Hn.
  replace (existsb (Nat.eqb (3 * k)) [12; 15; 18; 21; 24]%nat) with true.
  2:{ symmetry. apply existsb_exists. exists (3 * k)%nat.
      split; [| apply Nat.eqb_refl].
      cbn [In]. lia. }
  cbn [negb]. unfold spec_words. rewrite (spec_words_indices _ Hall).
  rewrite (groups_bits _ Hall). unfold spec_groups.
  rewrite concat_chunks by lia.
  destruct (spec_bits_length entropy k Hk (proj2 Hk')) as [HB Hc].
  rewrite HB.
  replace (3 * k / 3)%nat with k by (apply Nat.div_unique with 0%nat; lia).
  replace (3 * k * 11 - k)%nat with (List.length (bytes_bits entropy))
    by (rewrite bytes_bits_length; lia).
  rewrite firstn_exact, skipn_exact.
  rewrite bits_bytes_bits. apply bits_eqb_eq.
  unfold spec_checksum. f_equal. rewrite Hk.
  symmetry. apply Nat.div_unique with 0%nat; lia.
Qed.

End RoundTrip.

(** ** Theorems on the mnemonic codec *)

(** C1.  For every supported strength, whatever octets the random source
    hands out, [generate_mnemonic] returns a mnemonic of exactly
    [strength / 32 * 3] words, and [validate_mnemonic] accepts it. *)
Theorem generate_mnemonic_valid
    (wordlist : list str) (R : Secrets) (st : pool R) (strength : Z) :
  wordlist_ok wordlist = true ->
  In strength [128; 160; 192; 224; 256] ->
  exists mnemonic : str,
    fst (generate_mnemonic wordlist R strength st) = Ok mnemonic /\
    len (split mnemonic) = strength / 32 * 3 /\
    validate_mnemonic wordlist mnemonic = Ok true.
Proof.
  intros Hwl Hs. unfold generate_mnemonic.
  rewrite (proj2 (mem_In strength _) Hs). cbn [negb].
  assert (Hk : exists k : nat, strength = 32 * Z.of_nat k /\ (4 <= k <= 8)%nat).
  { cbn [In] in Hs. destruct Hs as [H | [H | [H | [H | [H | []]]]]];
      [exists 4%nat | exists 5%nat | exists 6%nat | exists 7%nat | exists 8%nat]; lia. }
  destruct Hk as (k & -> & Hk).
  pose proof (token_bytes_len R (32 * Z.of_nat k / 8) st) as Hlen.
  destruct (token_bytes R (32 * Z.of_nat k / 8) st) as [entropy st'].
  cbn [fst] in *.
  replace (32 * Z.of_nat k / 8) with (Z.of_nat (4 * k)) in Hlen
    by (apply Z.div_unique with 0; lia).
  specialize (Hlen ltac:(lia)).
  assert (Hl : List.length entropy = (4 * k)%nat) by (unfold len in Hlen; lia).
  assert (Hmem : mem (len entropy) [16; 20; 24; 28; 32] = true).
  { rewrite Hlen. apply mem_In. cbn [In]. lia. }
  exists (join (lit " ") (spec_words wordlist entropy)). repeat split.
  - now apply entropy_to_mnemonic_refines.
  - rewrite (split_join _ (spec_words_are_words wordlist Hwl entropy k Hl (proj2 Hk))).
    unfold len, spec_words. rewrite length_map.
    destruct (spec_groups_whole entropy k Hl (proj2 Hk)) as [-> _].
    replace (32 * Z.of_nat k / 32) with (Z.of_nat k)
      by (apply Z.div_unique with 0; lia).
    lia.
  - rewrite (validate_mnemonic_refines wordlist Hwl). f_equal.
    now apply spec_validate_encoded with k.
Qed.

(** C2.  For entropy of 16, 20, 24, 28 or 32 octets the encoder returns
    the words of the specification joined by single spaces: the bit string
    is the entropy written big-endian, eight bits per octet, followed by
    the first [entropyBits / 32] bits of its SHA-256 digest; it is cut into
    consecutive groups of eleven bits; each group, read as a big-endian
    number, selects a word of the word list; the words keep the order of
    the groups. *)
Theorem entropy_to_mnemonic_spec (wordlist : list str) (entropy : bytes) :
  wordlist_ok wordlist = true ->
  In (len entropy) [16; 20; 24; 28; 32] ->
  let entropy_bits := len entropy * 8 in
  let bits :=
    bytes_bits entropy
      ++ firstn (Z.to_nat (entropy_bits / 32)) (bytes_bits (Hash.sha256 entropy)) in
  let groups := chunks 11 bits in
  _entropy_to_mnemonic wordlist entropy
  = Ok (join (lit " ")
          (List.map (fun g => nth (Z.to_nat (bits_value g)) wordlist []) groups))
  /\ List.concat groups = bits
  /\ Forall (fun g => List.length g = 11%nat) groups
  /\ len groups = (entropy_bits + entropy_bits / 32) / 11
  /\ (forall (b : byte) (i : nat),
        (i < 8)%nat ->
        nth i (bytes_bits [b]) false = Z.testbit (byte_val b) (Z.of_nat (7 - i)))
  /\ (forall bs : bytes,
        bytes_bits bs = List.concat (List.map (fun b => bytes_bits [b]) bs)).
Proof.
  intros Hwl Hin entropy_bits bits groups.
  pose proof (proj2 (mem_In _ _) Hin) as Hmem.
  destruct (entropy_length_cases _ Hmem) as (k & Hk & Hk').
  assert (Hdiv : Z.to_nat (entropy_bits / 32) = (List.length entropy * 8 / 32)%nat).
  { unfold entropy_bits, len. rewrite Hk.
    replace (Z.of_nat (4 * k) * 8 / 32) with (Z.of_nat k)
      by (apply Z.div_unique with 0; lia).
    replace (4 * k * 8 / 32)%nat with k
      by (apply Nat.div_unique with 0%nat; lia).
    lia. }
  assert (Hbits : bits = bytes_bits entropy ++ spec_checksum entropy)
    by (unfold bits, spec_checksum; now rewrite Hdiv).
  assert (Hgroups : groups = spec_groups entropy)
    by (unfold groups, spec_groups; now rewrite Hbits).
  destruct (spec_groups_whole entropy k Hk (proj2 Hk')) as [Hlen Hall].
  refine (conj _ (conj _ (conj _ (conj _ (conj _ _))))).
  - rewrite Hgroups. now apply entropy_to_mnemonic_refines.
  - unfold groups. apply concat_chunks. lia.
  - now rewrite Hgroups.
  - rewrite Hgroups. unfold len. rewrite Hlen. unfold entropy_bits, len.
    rewrite Hk.
    replace (Z.of_nat (4 * k) * 8 / 32) with (Z.of_nat k)
      by (apply Z.div_unique with 0; lia).
    apply Z.div_unique with 0; lia.
  - intros b i Hi. unfold bytes_bits. cbn [flat_map]. rewrite app_nil_r.
    now rewrite be_bits_nth by assumption.
  - intros bs. unfold bytes_bits. rewrite flat_map_concat_map.
    f_equal; apply map_ext; intros b; cbn [flat_map]; now rewrite app_nil_r.
Qed.

Lemma all_some_total {A B : Type} (f : A -> option B) (l : list A) :
  (forall x, In x l -> f x <> None) ->
  exists r, all_some (List.map f l) = Some r.
Proof.
  induction l as [| x l IH]; intros H.
  - exists []. reflexivity.
  - destruct IH as [r Hr]; [intros y Hy; apply H; now right |].
    cbn [List.map all_some]. rewrite Hr.
    destruct (f x) as [y |] eqn:E; [eauto |].
    exfalso. apply (H x); [now left | assumption].
Qed.

Lemma existsb_nat_In (n : nat) (l : list nat) :
  existsb (Nat.eqb n) l = true <-> In n l.
Proof.
  rewrite existsb_exists. split.
  - intros (x & Hx & E). apply Nat.eqb_eq in E. now subst.
  - intros H. exists n. split; [assumption | apply Nat.eqb_refl].
Qed.

(** C3.  [validate_mnemonic] never raises.  It answers [False] when the
    number of whitespace-separated tokens is not 12, 15, 18, 21 or 24 (13
    in particular), and when some token is not in the word list.
    Otherwise, with the 11-bit indices of the words written one after the
    other, the last [wordCount / 3] bits taken as checksum and the rest as
    entropy, it answers [True] exactly when the checksum bits are the
    first [wordCount / 3] bits of the SHA-256 digest of the entropy
    octets. *)
Theorem validate_mnemonic_spec (wordlist : list str) (mnemonic : str) :
  wordlist_ok wordlist = true ->
  let words := split mnemonic in
  let n := List.length words in
  (exists b : bool, validate_mnemonic wordlist mnemonic = Ok b)
  /\ (~ In n [12; 15; 18; 21; 24]%nat ->
      validate_mnemonic wordlist mnemonic = Ok false)
  /\ ((exists w, In w words /\ ~ In w wordlist) ->
      validate_mnemonic wordlist mnemonic = Ok false)
  /\ (n = 13%nat -> validate_mnemonic wordlist mnemonic = Ok false)
  /\ (In n [12; 15; 18; 21; 24]%nat ->
      (forall w, In w words -> In w wordlist) ->
      exists indices : list Z,
        Forall2 (fun w i => 0 <= i /\ nth_error wordlist (Z.to_nat i) = Some w)
                words indices
        /\ let bits := flat_map (be_bits 11) indices in
           let cs := (n / 3)%nat in
           let entropy_bits := firstn (List.length bits - cs) bits in
           let checksum_bits := skipn (List.length bits - cs) bits in
           let expected :=
             firstn cs (bytes_bits (Hash.sha256 (bits_bytes entropy_bits))) in
           List.length bits = (11 * n)%nat
           /\ (validate_mnemonic wordlist mnemonic = Ok true
               <-> checksum_bits = expected)
           /\ (validate_mnemonic wordlist mnemonic = Ok false
               <-> checksum_bits <> expected)).
Proof.
  intros Hwl words n.
  rewrite (validate_mnemonic_refines wordlist Hwl).
  assert (Hout : ~ In n [12; 15; 18; 21; 24]%nat ->
                 spec_validate wordlist mnemonic = false).
  { intros Hn. unfold spec_validate. fold words. fold n.
    destruct (existsb (Nat.eqb n) [12; 15; 18; 21; 24]%nat) eqn:E;
      [| reflexivity].
    apply existsb_nat_In in E. contradiction. }
  refine (conj _ (conj _ (conj _ (conj _ _)))).
  - eauto.
  - intros Hn. now rewrite Hout.
  - intros (w & Hw & Hnot). f_equal. unfold spec_validate. fold words. fold n.
    destruct (existsb (Nat.eqb n) [12; 15; 18; 21; 24]%nat); [| reflexivity].
    cbn [negb]. rewrite all_some_none; [reflexivity |].
    exists w. split; [assumption |]. now apply index_from_none.
  - intros Hn. rewrite Hout; [reflexivity |]. rewrite Hn. cbn [In]. lia.
  - intros Hn Hin.
    destruct (all_some_total (index_of wordlist) words) as [indices Hi].
    { intros w Hw E. apply index_from_none in E. auto. }
    exists indices. pose proof Hi as HF. apply all_some_Forall2 in HF.
    split.
    + clear - HF Hwl. induction HF as [| w i ws js Hw _ IH]; constructor;
        [| assumption].
      destruct (index_of_range wordlist Hwl w i Hw). split; [lia | assumption].
    + cbv zeta. rewrite flat_map_be_bits_length.
      rewrite <- (Forall2_length HF). fold n.
      assert (Hv : spec_validate wordlist mnemonic
                   = bits_eqb
                       (skipn (n * 11 - n / 3) (flat_map (be_bits 11) indices))
                       (firstn (n / 3)
                          (bytes_bits
                             (Hash.sha256
                                (bits_bytes
                                   (firstn (n * 11 - n / 3)
                                      (flat_map (be_bits 11) indices))))))).
      { unfold spec_validate. fold words. fold n.
        rewrite (proj2 (existsb_nat_In n _) Hn). cbn [negb]. rewrite Hi.
        rewrite flat_map_be_bits_length, <- (Forall2_length HF). reflexivity. }
      rewrite Hv. split; [lia |].
      remember (skipn (n * 11 - n / 3) (flat_map (be_bits 11) indices)) as chk.
      remember (firstn (n / 3)
                  (bytes_bits
                     (Hash.sha256
                        (bits_bytes
                           (firstn (n * 11 - n / 3)
                              (flat_map (be_bits 11) indices)))))) as expected.
      clear. pose proof (bits_eqb_eq chk expected) as Hb.
      destruct (bits_eqb chk expected).
      * split; split; intros E; try reflexivity.
        -- now apply Hb.
        -- discriminate E.
        -- exfalso. apply E. now apply Hb.
      * split; split; intros E; try reflexivity.
        -- discriminate E.
        -- apply Hb in E. discriminate E.
        -- intros E'. apply Hb in E'. discriminate E'.
Qed.

(** ** Theorems on the seed *)

Lemma traverse_app {A B : Type} (f : A -> result B) (a b : list A) (xs ys : list B) :
  traverse f a = Ok xs -> traverse f b = Ok ys ->
  traverse f (a ++ b) = Ok (xs ++ ys).
Proof.
  revert xs. induction a as [| x a IH]; intros xs Ha Hb.
  - cbn in Ha. injection Ha as <-. exact Hb.
  - cbn [traverse app] in *. destruct (f x) as [y | e]; [| discriminate Ha].
    cbn [bind] in *. destruct (traverse f a) as [r | e]; [| discriminate Ha].
    cbn [bind] in Ha. injection Ha as <-.
    rewrite (IH r eq_refl Hb). reflexivity.
Qed.

(** Encoding a concatenation concatenates the encodings. *)
Lemma encode_utf8_app (a b : str) (ba bb : bytes) :
  encode_utf8 a = Ok ba -> encode_utf8 b = Ok bb ->
  encode_utf8 (a ++ b) = Ok (ba ++ bb).
Proof.
  unfold encode_utf8. intros Ha Hb.
  destruct (traverse utf8_char a) as [xs | e] eqn:Ea; [| discriminate Ha].
  destruct (traverse utf8_char b) as [ys | e] eqn:Eb; [| discriminate Hb].
  cbn [bind] in *. injection Ha as <-. injection Hb as <-.
  rewrite (traverse_app _ _ _ _ _ Ea Eb). cbn [bind].
  now rewrite concat_app.
Qed.

Lemma pbkdf2_hmac_sha512_unfold (password salt : bytes) (iterations : Z) :
  Hash.pbkdf2_hmac_sha512 password salt iterations
  = Hash.pbkdf2 (Hash.hmac_sha512 password) 64 salt (Z.to_nat iterations) 64.
Proof. reflexivity. Qed.

Lemma abandon_about_vector :
  Hash.pbkdf2_hmac_sha512
    (ascii_bytes "abandon abandon abandon abandon abandon abandon abandon abandon abandon abandon abandon about")
    (ascii_bytes "mnemonic") 2048
  = abandon_about_seed.
Proof. rewrite pbkdf2_hmac_sha512_keyed_eq. vm_compute. reflexivity. Qed.

Lemma abandon_about_space_vector :
  Hash.pbkdf2_hmac_sha512
    (ascii_bytes "abandon abandon abandon abandon abandon abandon abandon abandon abandon abandon abandon about ")
    (ascii_bytes "mnemonic") 2048
  = abandon_about_space_seed.
Proof. rewrite pbkdf2_hmac_sha512_keyed_eq. vm_compute. reflexivity. Qed.

Lemma mnemonic_to_seed_encoded (mnemonic passphrase : str) (password pass_bytes : bytes) :
  encode_utf8 mnemonic = Ok password ->
  encode_utf8 passphrase = Ok pass_bytes ->
  mnemonic_to_seed mnemonic passphrase
  = Ok (Hash.pbkdf2_hmac_sha512 password (ascii_bytes "mnemonic" ++ pass_bytes) 2048).
Proof.
  intros Hm Hp. unfold mnemonic_to_seed. rewrite Hm. cbn [bind].
  rewrite (encode_utf8_app (lit "mnemonic") passphrase
             (ascii_bytes "mnemonic") pass_bytes eq_refl Hp).
  reflexivity.
Qed.

Lemma abandon_about_to_seed :
  mnemonic_to_seed abandon_about [] = Ok abandon_about_seed.
Proof.
  rewrite (mnemonic_to_seed_encoded abandon_about []
             (ascii_bytes "abandon abandon abandon abandon abandon abandon abandon abandon abandon abandon abandon about")
             [] eq_refl eq_refl).
  rewrite app_nil_r, abandon_about_vector. reflexivity.
Qed.

Lemma abandon_about_space_to_seed :
  mnemonic_to_seed abandon_about_space [] = Ok abandon_about_space_seed.
Proof.
  rewrite (mnemonic_to_seed_encoded abandon_about_space []
             (ascii_bytes "abandon abandon abandon abandon abandon abandon abandon abandon abandon abandon abandon about ")
             [] eq_refl eq_refl).
  rewrite app_nil_r, abandon_about_space_vector. reflexivity.
Qed.

(** C4.  When the mnemonic and the passphrase encode to UTF-8,
    [mnemonic_to_seed] returns the 64 octets of PBKDF2 with HMAC-SHA512,
    password the UTF-8 octets of the mnemonic text as given, salt the
    octets of ["mnemonic"] followed by those of the passphrase, 2048
    iterations.  On the twelve-word test mnemonic (eleven times
    [abandon], then [about]) with the empty passphrase the result is the
    published seed [5eb00bbd...38e4]. *)
Theorem mnemonic_to_seed_spec
    (mnemonic passphrase : str) (password pass_bytes : bytes) :
  encode_utf8 mnemonic = Ok password ->
  encode_utf8 passphrase = Ok pass_bytes ->
  let seed :=
    Hash.pbkdf2 (Hash.hmac_sha512 password) 64
                (ascii_bytes "mnemonic" ++ pass_bytes) (Z.to_nat 2048) 64 in
  mnemonic_to_seed mnemonic passphrase = Ok seed
  /\ List.length seed = 64%nat
  /\ mnemonic_to_seed abandon_about [] = Ok abandon_about_seed.
Proof.
  intros Hm Hp seed. subst seed.
  pose proof (mnemonic_to_seed_encoded mnemonic passphrase password pass_bytes Hm Hp)
    as Hseed.
  pose proof (pbkdf2_hmac_sha512_length password
                (ascii_bytes "mnemonic" ++ pass_bytes) 2048) as Hlen.
  rewrite pbkdf2_hmac_sha512_unfold in Hseed, Hlen.
  refine (conj Hseed (conj Hlen _)).
  exact abandon_about_to_seed.
Qed.

(** ** Theorems on the key pair and the address *)

Lemma len_32 (b : bytes) : List.length b = 32%nat -> (len b =? 32) = true.
Proof. intros H. unfold len. rewrite H. reflexivity. Qed.

Lemma generate_from_seed_value (HAS_NACL : bool) (seed : bytes) :
  generate_from_seed HAS_NACL seed
  = Ok {| private_key :=
            Hash.sha256 seed ++ Ed25519.secret_to_public (Hash.sha256 seed);
          public_key := Ed25519.secret_to_public (Hash.sha256 seed) |}.
Proof.
  unfold generate_from_seed, nacl.SigningKey_init, ed25519.from_private_bytes.
  rewrite (len_32 _ (sha256_length seed)).
  destruct HAS_NACL; reflexivity.
Qed.

(** C5.  [generate_from_seed] hashes the seed with SHA-256, takes the 32
    octets as the ed25519 seed, and returns the 32-octet public key
    together with the 64-octet private key made of that seed followed by
    the public key; equal seeds give equal results.  This holds for every
    seed, the 64-octet ones in particular, and under either library. *)
Theorem generate_from_seed_spec (HAS_NACL : bool) (seed : bytes) :
  let key_material := Hash.sha256 seed in
  let public := Ed25519.secret_to_public key_material in
  generate_from_seed HAS_NACL seed
  = Ok {| private_key := key_material ++ public; public_key := public |}
  /\ List.length key_material = 32%nat
  /\ List.length public = 32%nat
  /\ List.length (key_material ++ public) = 64%nat
  /\ (forall seed' : bytes,
        seed' = seed ->
        generate_from_seed HAS_NACL seed' = generate_from_seed HAS_NACL seed).
Proof.
  cbv zeta. refine (conj _ (conj _ (conj _ (conj _ _)))).
  - apply generate_from_seed_value.
  - apply sha256_length.
  - apply secret_to_public_length.
  - rewrite length_app, sha256_length, secret_to_public_length. reflexivity.
  - intros seed' ->. reflexivity.
Qed.

(** C6.  The PyNaCl branch and the cryptography branch of
    [generate_from_seed] return the same key pair for every seed: a
    64-octet private key and a 32-octet public key. *)
Theorem backends_agree (seed : bytes) :
  generate_from_seed true seed = generate_from_seed false seed
  /\ exists keys : KeyPair,
       generate_from_seed true seed = Ok keys
       /\ generate_from_seed false seed = Ok keys
       /\ List.length (private_key keys) = 64%nat
       /\ List.length (public_key keys) = 32%nat.
Proof.
  rewrite !generate_from_seed_value. split; [reflexivity |].
  eexists. refine (conj eq_refl (conj eq_refl (conj _ _))); cbn [private_key public_key].
  - rewrite length_app, sha256_length, secret_to_public_length. reflexivity.
  - apply secret_to_public_length.
Qed.

Lemma upper_hex_byte (x : byte) :
  upper [hex_digit (Byte.to_N x / 16)%N; hex_digit (Byte.to_N x mod 16)%N]
  = [upper_hex_digit (Byte.to_N x / 16)%N; upper_hex_digit (Byte.to_N x mod 16)%N].
Proof. destruct x; reflexivity. Qed.

Lemma upper_hex (b : bytes) :
  upper (hex b)
  = flat_map (fun x => [upper_hex_digit (Byte.to_N x / 16)%N;
                        upper_hex_digit (Byte.to_N x mod 16)%N]) b.
Proof.
  unfold upper, hex. induction b as [| x b IH]; [reflexivity |].
  cbn [flat_map]. rewrite map_app, IH. f_equal. apply upper_hex_byte.
Qed.

Lemma upper_hex_digits (b : bytes) :
  forallb is_upper_hex
    (flat_map (fun x => [upper_hex_digit (Byte.to_N x / 16)%N;
                         upper_hex_digit (Byte.to_N x mod 16)%N]) b) = true.
Proof.
  induction b as [| x b IH]; [reflexivity |].
  cbn [flat_map]. rewrite forallb_app, IH, andb_true_r.
  destruct x; reflexivity.
Qed.

Lemma generate_address_value (public_key : bytes) :
  generate_address public_key = Ok (spec_address public_key).
Proof.
  unfold generate_address, spec_address.
  rewrite slice_to by lia. now rewrite upper_hex.
Qed.

Lemma spec_address_length (public_key : bytes) :
  List.length (spec_address public_key) = 40%nat.
Proof.
  unfold spec_address.
  assert (H : List.length (firstn 20 (Hash.sha256 public_key)) = 20%nat)
    by (rewrite length_firstn, sha256_length; reflexivity).
  revert H. generalize (firstn 20 (Hash.sha256 public_key)) as b.
  intros b H.
  assert (G : forall l : bytes,
            List.length
              (flat_map (fun x => [upper_hex_digit (Byte.to_N x / 16)%N;
                                   upper_hex_digit (Byte.to_N x mod 16)%N]) l)
            = (2 * List.length l)%nat).
  { induction l as [| x l IH]; [reflexivity |].
    cbn [flat_map List.length app]. rewrite IH. lia. }
  rewrite G, H. reflexivity.
Qed.

(** C7.  For a 32-octet public key [generate_address] returns the
    upper-case hexadecimal text of the first 20 octets of its SHA-256
    digest: 40 characters, each one of [0-9A-F]. *)
Theorem generate_address_spec (public_key : bytes) :
  len public_key = 32 ->
  generate_address public_key = Ok (spec_address public_key)
  /\ len (spec_address public_key) = 40
  /\ forallb is_upper_hex (spec_address public_key) = true
  /\ spec_address public_key
     = List.concat
         (List.map (fun x => [upper_hex_digit (Byte.to_N x / 16)%N;
                              upper_hex_digit (Byte.to_N x mod 16)%N])
                   (firstn 20 (Hash.sha256 public_key))).
Proof.
  intros _. refine (conj _ (conj _ (conj _ _))).
  - apply generate_address_value.
  - unfold len. now rewrite spec_address_length.
  - apply upper_hex_digits.
  - unfold spec_address. apply flat_map_concat_map.
Qed.

(** C8, as the code has it.  [generate_address] does not look at the
    length of its argument: for an input that is not 32 octets long it
    returns, like for any other, the 40-character address of the first 20
    octets of the SHA-256 digest, and raises nothing. *)
Theorem generate_address_any_length (public_key : bytes) :
  len public_key <> 32 ->
  generate_address public_key = Ok (spec_address public_key)
  /\ len (spec_address public_key) = 40
  /\ forall e : exn, generate_address public_key <> Raise e.
Proof.
  intros _. rewrite generate_address_value.
  refine (conj eq_refl (conj _ _)).
  - unfold len. now rewrite spec_address_length.
  - intros e. discriminate.
Qed.

(** The empty key, zero octets long, gets an address. *)
Lemma generate_address_empty_key :
  len (@nil byte) <> 32
  /\ generate_address [] = Ok (lit "E3B0C44298FC1C149AFBF4C8996FB92427AE41E4")
  /\ ~ (forall public_key : bytes,
          len public_key <> 32 ->
          exists e : exn, generate_address public_key = Raise e).
Proof.
  assert (E : generate_address []
              = Ok (lit "E3B0C44298FC1C149AFBF4C8996FB92427AE41E4"))
    by (vm_compute; reflexivity).
  refine (conj _ (conj E _)).
  - unfold len. cbn. lia.
  - intros H. destruct (H [] ltac:(unfold len; cbn; lia)) as [e He].
    rewrite E in He. discriminate He.
Qed.

(** ** The whole derivation *)

Lemma derive_validator_key_value
    (HAS_NACL : bool) (mnemonic passphrase : str) (password pass_bytes : bytes) :
  encode_utf8 mnemonic = Ok password ->
  encode_utf8 passphrase = Ok pass_bytes ->
  let seed :=
    Hash.pbkdf2_hmac_sha512 password (ascii_bytes "mnemonic" ++ pass_bytes) 2048 in
  let key_material := Hash.sha256 seed in
  let public := Ed25519.secret_to_public key_material in
  derive_validator_key HAS_NACL mnemonic passphrase
  = Ok {| address := spec_address public;
          pub_key := {| type := lit "tendermint/PubKeyEd25519";
                        value := decode_ascii (b64encode public) |};
          priv_key := {| type := lit "tendermint/PrivKeyEd25519";
                         value := decode_ascii (b64encode (key_material ++ public)) |} |}.
Proof.
  intros Hm Hp. cbv zeta. unfold derive_validator_key.
  rewrite (mnemonic_to_seed_encoded _ _ _ _ Hm Hp). cbn [bind].
  rewrite generate_from_seed_value. cbn [bind private_key public_key].
  unfold create_priv_validator_key. rewrite generate_address_value.
  reflexivity.
Qed.

(** C9.  The derivation [mnemonic_to_seed], [generate_from_seed],
    [create_priv_validator_key] is a function of the mnemonic and the
    passphrase alone: two runs on the same inputs, under whichever
    signature library each run found, return the same result, hence
    records with the same [address], [pub_key.value] and
    [priv_key.value]; and the record is the composition of the three
    steps. *)
Theorem derive_validator_key_deterministic
    (run1_nacl run2_nacl : bool) (mnemonic passphrase : str) :
  derive_validator_key run1_nacl mnemonic passphrase
  = derive_validator_key run2_nacl mnemonic passphrase
  /\ (forall r1 r2 : ValidatorRecord,
        derive_validator_key run1_nacl mnemonic passphrase = Ok r1 ->
        derive_validator_key run2_nacl mnemonic passphrase = Ok r2 ->
        address r1 = address r2
        /\ value (pub_key r1) = value (pub_key r2)
        /\ value (priv_key r1) = value (priv_key r2))
  /\ derive_validator_key run1_nacl mnemonic passphrase
     = (seed <- mnemonic_to_seed mnemonic passphrase ;;
        keys <- generate_from_seed run1_nacl seed ;;
        create_priv_validator_key (private_key keys) (public_key keys))
  /\ (forall password pass_bytes : bytes,
        encode_utf8 mnemonic = Ok password ->
        encode_utf8 passphrase = Ok pass_bytes ->
        exists r : ValidatorRecord,
          derive_validator_key run1_nacl mnemonic passphrase = Ok r
          /\ List.length (address r) = 40%nat).
Proof.
  assert (E : derive_validator_key run1_nacl mnemonic passphrase
              = derive_validator_key run2_nacl mnemonic passphrase).
  { unfold derive_validator_key.
    destruct (mnemonic_to_seed mnemonic passphrase) as [seed | e];
      [| reflexivity].
    cbn [bind]. now rewrite !generate_from_seed_value. }
  refine (conj E (conj _ (conj eq_refl _))).
  - intros r1 r2 H1 H2. rewrite E, H2 in H1. injection H1 as <-. auto.
  - intros password pass_bytes Hm Hp.
    rewrite (derive_validator_key_value run1_nacl _ _ _ _ Hm Hp).
    eexists. split; [reflexivity |]. cbn [address]. apply spec_address_length.
Qed.

(** ** Whitespace: seen by the seed, not by the checker *)

Lemma validate_mnemonic_tokens (wordlist : list str) (a b : str) :
  split a = split b ->
  validate_mnemonic wordlist a = validate_mnemonic wordlist b.
Proof.
  intros H. unfold validate_mnemonic. now rewrite !split_strip, H.
Qed.

Section TestMnemonic.

Variable wordlist : list str.
Hypothesis wordlist_good : wordlist_ok wordlist = true.
Hypothesis word_0 : nth_error wordlist 0 = Some (lit "abandon").
Hypothesis word_3 : nth_error wordlist 3 = Some (lit "about").

Lemma zero_entropy_groups :
  spec_groups (List.repeat x00 16)
  = List.repeat (List.repeat false 11) 11
      ++ [[false; false; false; false; false; false; false; false; false; true; true]].
Proof. vm_compute. reflexivity. Qed.

Lemma zero_entropy_words :
  spec_words wordlist (List.repeat x00 16)
  = List.repeat (lit "abandon") 11 ++ [lit "about"].
Proof.
  unfold spec_words. rewrite zero_entropy_groups.
  assert (E0 : spec_word wordlist (List.repeat false 11) = lit "abandon")
    by (unfold spec_word; now apply nth_error_nth).
  assert (E3 : spec_word wordlist
                 [false; false; false; false; false; false; false; false; false; true; true]
               = lit "about")
    by (unfold spec_word; now apply nth_error_nth).
  rewrite map_app, map_repeat. cbn [List.map]. now rewrite E0, E3.
Qed.

Lemma abandon_about_valid : validate_mnemonic wordlist abandon_about = Ok true.
Proof.
  rewrite (validate_mnemonic_refines wordlist wordlist_good).
  replace abandon_about
    with (join (lit " ") (spec_words wordlist (List.repeat x00 16)))
    by (rewrite zero_entropy_words; reflexivity).
  rewrite (spec_validate_encoded wordlist wordlist_good (List.repeat x00 16) 4);
    [reflexivity | reflexivity | lia].
Qed.

End TestMnemonic.

Lemma abandon_about_tokens : split abandon_about = split abandon_about_space.
Proof. vm_compute. reflexivity. Qed.

Lemma seed_lengths :
  List.length abandon_about_seed = 64%nat
  /\ List.length abandon_about_space_seed = 64%nat.
Proof. split; vm_compute; reflexivity. Qed.

Lemma seeds_differ : abandon_about_seed <> abandon_about_space_seed.
Proof. intros E. vm_compute in E. discriminate E. Qed.

(** C10.  [validate_mnemonic] sees only the whitespace-separated tokens
    of its argument, while [mnemonic_to_seed] feeds the text as given to
    PBKDF2.  With a word list holding [abandon] at index 0 and [about] at
    index 3, as the English list does, the test mnemonic and the same
    text followed by one space have the same tokens and are both accepted,
    and their 64-octet seeds differ. *)
Theorem whitespace_changes_seed (wordlist : list str) :
  wordlist_ok wordlist = true ->
  nth_error wordlist 0 = Some (lit "abandon") ->
  nth_error wordlist 3 = Some (lit "about") ->
  (forall a b : str,
     split a = split b ->
     validate_mnemonic wordlist a = validate_mnemonic wordlist b)
  /\ (forall (m p : str) (password pass_bytes : bytes),
        encode_utf8 m = Ok password ->
        encode_utf8 p = Ok pass_bytes ->
        mnemonic_to_seed m p
        = Ok (Hash.pbkdf2_hmac_sha512 password
                (ascii_bytes "mnemonic" ++ pass_bytes) 2048))
  /\ exists (m1 m2 : str) (seed1 seed2 : bytes),
       split m1 = split m2
       /\ validate_mnemonic wordlist m1 = Ok true
       /\ validate_mnemonic wordlist m2 = Ok true
       /\ mnemonic_to_seed m1 [] = Ok seed1
       /\ mnemonic_to_seed m2 [] = Ok seed2
       /\ List.length seed1 = 64%nat
       /\ List.length seed2 = 64%nat
       /\ seed1 <> seed2.
Proof.
  intros Hwl H0 H3.
  refine (conj (validate_mnemonic_tokens wordlist)
               (conj mnemonic_to_seed_encoded _)).
  exists abandon_about, abandon_about_space,
         abandon_about_seed, abandon_about_space_seed.
  pose proof abandon_about_tokens as Hs.
  refine (conj Hs (conj _ (conj _ (conj _ (conj _ (conj _ (conj _ _))))))).
  - now apply abandon_about_valid.
  - rewrite <- (validate_mnemonic_tokens wordlist _ _ Hs).
    now apply abandon_about_valid.
  - exact abandon_about_to_seed.
  - exact abandon_about_space_to_seed.
  - exact (proj1 seed_lengths).
  - exact (proj2 seed_lengths).
  - exact seeds_differ.
Qed.

(** ** Instances *)

Lemma example_wordlist_ok : wordlist_ok example_wordlist = true.
Proof. vm_compute. reflexivity. Qed.

Lemma generate_mnemonic_valid_witness :
  exists mnemonic : str,
    fst (generate_mnemonic example_wordlist zero_source 128 tt) = Ok mnemonic /\
    len (split mnemonic) = 128 / 32 * 3 /\
    validate_mnemonic example_wordlist mnemonic = Ok true.
Proof.
  apply (generate_mnemonic_valid example_wordlist zero_source tt 128).
  - exact example_wordlist_ok.
  - cbn [In]. lia.
Defined.

Lemma entropy_to_mnemonic_spec_witness :
  _entropy_to_mnemonic example_wordlist (List.repeat x00 16)
  = Ok (join (lit " ") (spec_words example_wordlist (List.repeat x00 16))).
Proof.
  refine (proj1 (entropy_to_mnemonic_spec example_wordlist (List.repeat x00 16)
                   example_wordlist_ok _)).
  cbn. lia.
Defined.

Lemma validate_mnemonic_spec_witness :
  validate_mnemonic example_wordlist (lit "a b c d e f g h i j k l m") = Ok false.
Proof.
  apply (proj1 (proj2 (proj2 (proj2
           (validate_mnemonic_spec example_wordlist
              (lit "a b c d e f g h i j k l m") example_wordlist_ok))))).
  vm_compute. reflexivity.
Defined.

Lemma mnemonic_to_seed_spec_witness :
  mnemonic_to_seed abandon_about [] = Ok abandon_about_seed.
Proof.
  exact (proj2 (proj2
           (mnemonic_to_seed_spec abandon_about []
              (ascii_bytes "abandon abandon abandon abandon abandon abandon abandon abandon abandon abandon abandon about")
              [] eq_refl eq_refl))).
Defined.

Lemma generate_address_spec_witness :
  len (List.repeat x00 32) = 32 /\
  generate_address (List.repeat x00 32) = Ok (spec_address (List.repeat x00 32)).
Proof.
  split; [reflexivity |].
  exact (proj1 (generate_address_spec (List.repeat x00 32) eq_refl)).
Defined.

Lemma generate_address_any_length_witness :
  len (@nil byte) <> 32 /\
  generate_address [] = Ok (spec_address []).
Proof.
  assert (H : len (@nil byte) <> 32) by (unfold len; cbn; lia).
  split; [exact H |].
  exact (proj1 (generate_address_any_length [] H)).
Defined.

Lemma whitespace_changes_seed_witness :
  exists (m1 m2 : str) (seed1 seed2 : bytes),
    split m1 = split m2
    /\ validate_mnemonic example_wordlist m1 = Ok true
    /\ validate_mnemonic example_wordlist m2 = Ok true
    /\ mnemonic_to_seed m1 [] = Ok seed1
    /\ mnemonic_to_seed m2 [] = Ok seed2
    /\ List.length seed1 = 64%nat
    /\ List.length seed2 = 64%nat
    /\ seed1 <> seed2.
Proof.
  exact (proj2 (proj2
           (whitespace_changes_seed example_wordlist example_wordlist_ok
              eq_refl eq_refl))).
Defined.

(* ===================================================================== *)
(** * Part III.  Further properties of the code                           *)
(* ===================================================================== *)

(** ** The encoder and the checker are inverse to each other *)

(** Unpacking the octets of a packed bit string gives the bits back. *)
Lemma bytes_bits_bits (n : nat) (bs : list bool) :
  List.length bs = (n * 8)%nat -> bytes_bits (bits_bytes bs) = bs.
Proof.
  intros Hlen. unfold bytes_bits, bits_bytes.
  destruct (chunks_whole 8 ltac:(lia) n bs Hlen) as [_ Hall].
  rewrite <- (concat_chunks 8 bs ltac:(lia)) at 2.
  rewrite flat_map_concat_map, map_map. f_equal.
  rewrite <- (map_id (chunks 8 bs)) at 2.
  apply map_ext_in. intros g Hg.
  rewrite Forall_forall in Hall. specialize (Hall g Hg).
  pose proof (bits_value_range g) as R. rewrite Hall in R.
  change (2 ^ Z.of_nat 8) with 256 in R.
  rewrite byte_val_of_Z by assumption.
  rewrite <- Hall. apply be_bits_bits_value.
Qed.

Lemma bits_bytes_length (n : nat) (bs : list bool) :
  List.length bs = (n * 8)%nat -> List.length (bits_bytes bs) = n.
Proof.
  intros Hlen. unfold bits_bytes. rewrite length_map.
  apply (chunks_whole 8 ltac:(lia) n bs Hlen).
Qed.

Section Decoding.

Variable wordlist : list str.
Hypothesis wordlist_good : wordlist_ok wordlist = true.

Lemma indices_words (words : list str) (indices : list Z) :
  Forall2 (fun w i => index_of wordlist w = Some i) words indices ->
  List.map (spec_word wordlist) (List.map (be_bits 11) indices) = words.
Proof.
  induction 1 as [| w i ws js Hw _ IH]; [reflexivity |].
  cbn [List.map]. rewrite IH. f_equal.
  destruct (index_of_range wordlist wordlist_good w i Hw) as [Hi Hn].
  unfold spec_word. rewrite bits_value_be_bits
    by (change (2 ^ Z.of_nat 11) with 2048; lia).
  now apply nth_error_nth.
Qed.

(** What acceptance by the specification's checker gives: an entropy of
    the right size whose encoding is the token sequence. *)
Lemma spec_validate_decodes (mnemonic : str) :
  spec_validate wordlist mnemonic = true ->
  exists (entropy : bytes) (k : nat),
    List.length entropy = (4 * k)%nat /\ (4 <= k <= 8)%nat /\
    spec_words wordlist entropy = split mnemonic.
Proof.
  unfold spec_validate. cbv zeta. set (words := split mnemonic).
  destruct (existsb (Nat.eqb (List.length words)) [12; 15; 18; 21; 24]%nat) eqn:Hn;
    [| discriminate].
  cbn [negb]. destruct (word_count_cases _ Hn) as (k & Hk & Hk').
  destruct (all_some (List.map (index_of wordlist) words)) as [indices |] eqn:Hi;
    [| discriminate].
  apply all_some_Forall2 in Hi.
  assert (Hlen : List.length indices = (3 * k)%nat)
    by (rewrite <- Hk; symmetry; eapply Forall2_length; eassumption).
  rewrite flat_map_be_bits_length, Hlen, Hk.
  replace (3 * k / 3)%nat with k by (apply Nat.div_unique with 0%nat; lia).
  set (bits := flat_map (be_bits 11) indices).
  assert (Hbits : List.length bits = (3 * k * 11)%nat)
    by (unfold bits; rewrite flat_map_be_bits_length; lia).
  set (ebits := firstn (3 * k * 11 - k) bits).
  assert (He : List.length ebits = (4 * k * 8)%nat)
    by (unfold ebits; rewrite length_firstn; lia).
  intros Hc. apply bits_eqb_eq in Hc.
  exists (bits_bytes ebits), k.
  assert (Hl : List.length (bits_bytes ebits) = (4 * k)%nat)
    by (now apply bits_bytes_length).
  refine (conj Hl (conj Hk' _)).
  unfold spec_words, spec_groups, spec_checksum.
  rewrite (bytes_bits_bits (4 * k) ebits He), Hl.
  replace (4 * k * 8 / 32)%nat with k by (apply Nat.div_unique with 0%nat; lia).
  rewrite <- Hc. unfold ebits. rewrite firstn_skipn.
  unfold bits. rewrite flat_map_concat_map.
  rewrite chunks_concat
    by (lia || (apply Forall_map, Forall_forall; intros; apply be_bits_length)).
  now apply indices_words.
Qed.

End Decoding.

(** X1.  Every mnemonic that [validate_mnemonic] accepts is, up to the
    whitespace between its words, the encoding of some entropy of 16, 20,
    24, 28 or 32 octets: the encoder applied to that entropy returns the
    accepted words joined by single spaces. *)
Theorem valid_mnemonic_is_encoding (wordlist : list str) (mnemonic : str) :
  wordlist_ok wordlist = true ->
  validate_mnemonic wordlist mnemonic = Ok true ->
  exists entropy : bytes,
    In (len entropy) [16; 20; 24; 28; 32]
    /\ _entropy_to_mnemonic wordlist entropy
       = Ok (join (lit " ") (split mnemonic)).
Proof.
  intros Hwl Hv. rewrite (validate_mnemonic_refines wordlist Hwl) in Hv.
  injection Hv as Hv.
  destruct (spec_validate_decodes wordlist Hwl mnemonic Hv)
    as (entropy & k & Hl & Hk & Hw).
  exists entropy.
  assert (Hin : In (len entropy) [16; 20; 24; 28; 32])
    by (unfold len; rewrite Hl; cbn [In]; lia).
  split; [assumption |].
  rewrite <- Hw. apply (entropy_to_mnemonic_refines wordlist Hwl).
  now apply mem_In.
Qed.

Lemma example_words_0_3 :
  nth_error example_wordlist 0 = Some (lit "abandon")
  /\ nth_error example_wordlist 3 = Some (lit "about").
Proof. split; vm_compute; reflexivity. Qed.

Lemma valid_mnemonic_is_encoding_witness :
  exists entropy : bytes,
    In (len entropy) [16; 20; 24; 28; 32]
    /\ _entropy_to_mnemonic example_wordlist entropy
       = Ok (join (lit " ") (split abandon_about)).
Proof.
  apply (valid_mnemonic_is_encoding example_wordlist abandon_about).
  - exact example_wordlist_ok.
  - exact (abandon_about_valid example_wordlist example_wordlist_ok
             (proj1 example_words_0_3) (proj2 example_words_0_3)).
Defined.

Lemma entropy_to_mnemonic_ok_length (wordlist : list str) (entropy : bytes) (m : str) :
  _entropy_to_mnemonic wordlist entropy = Ok m ->
  mem (len entropy) [16; 20; 24; 28; 32] = true.
Proof.
  unfold _entropy_to_mnemonic.
  destruct (mem (len entropy) [16; 20; 24; 28; 32]); [reflexivity | discriminate].
Qed.

Section Injective.

Variable wordlist : list str.
Hypothesis wordlist_good : wordlist_ok wordlist = true.

Lemma spec_words_bits (entropy : bytes) (k : nat) :
  List.length entropy = (4 * k)%nat -> (k <= 8)%nat ->
  all_some (List.map (index_of wordlist) (spec_words wordlist entropy))
  = Some (List.map bits_value (spec_groups entropy))
  /\ flat_map (be_bits 11) (List.map bits_value (spec_groups entropy))
     = bytes_bits entropy ++ spec_checksum entropy.
Proof.
  intros Hk Hk8.
  destruct (spec_groups_whole entropy k Hk Hk8) as [_ Hall]. split.
  - now apply spec_words_indices.
  - rewrite (groups_bits _ Hall). unfold spec_groups.
    apply concat_chunks. lia.
Qed.

Lemma spec_words_injective (e1 e2 : bytes) (k1 k2 : nat) :
  List.length e1 = (4 * k1)%nat -> (k1 <= 8)%nat ->
  List.length e2 = (4 * k2)%nat -> (k2 <= 8)%nat ->
  spec_words wordlist e1 = spec_words wordlist e2 -> e1 = e2.
Proof.
  intros H1 H1' H2 H2' E.
  destruct (spec_words_bits e1 k1 H1 H1') as [A1 B1].
  destruct (spec_words_bits e2 k2 H2 H2') as [A2 B2].
  rewrite E, A2 in A1. injection A1 as A1. rewrite A1 in B2.
  rewrite B1 in B2.
  destruct (spec_bits_length e1 k1 H1 H1') as [L1 _].
  destruct (spec_bits_length e2 k2 H2 H2') as [L2 _].
  rewrite B2 in L1. rewrite L1 in L2.
  assert (k1 = k2) by lia. subst k2.
  apply (f_equal (firstn (List.length (bytes_bits e1)))) in B2.
  rewrite firstn_exact in B2.
  replace (List.length (bytes_bits e1)) with (List.length (bytes_bits e2)) in B2
    by (rewrite !bytes_bits_length; lia).
  rewrite firstn_exact in B2.
  rewrite <- (bits_bytes_bits e1), <- (bits_bytes_bits e2). now f_equal.
Qed.

End Injective.

(** X2.  The encoder is injective: two entropies that are given the same
    mnemonic are equal. *)
Theorem entropy_to_mnemonic_injective
    (wordlist : list str) (entropy1 entropy2 : bytes) (mnemonic : str) :
  wordlist_ok wordlist = true ->
  _entropy_to_mnemonic wordlist entropy1 = Ok mnemonic ->
  _entropy_to_mnemonic wordlist entropy2 = Ok mnemonic ->
  entropy1 = entropy2.
Proof.
  intros Hwl H1 H2.
  pose proof (entropy_to_mnemonic_ok_length _ _ _ H1) as M1.
  pose proof (entropy_to_mnemonic_ok_length _ _ _ H2) as M2.
  destruct (entropy_length_cases _ M1) as (k1 & Hk1 & Hk1').
  destruct (entropy_length_cases _ M2) as (k2 & Hk2 & Hk2').
  rewrite (entropy_to_mnemonic_refines wordlist Hwl _ M1) in H1.
  rewrite (entropy_to_mnemonic_refines wordlist Hwl _ M2) in H2.
  injection H1 as H1. injection H2 as H2.
  apply (spec_words_injective wordlist Hwl entropy1 entropy2 k1 k2);
    try assumption; try lia.
  rewrite <- (split_join _ (spec_words_are_words wordlist Hwl entropy1 k1 Hk1 (proj2 Hk1'))).
  rewrite <- (split_join _ (spec_words_are_words wordlist Hwl entropy2 k2 Hk2 (proj2 Hk2'))).
  now rewrite H1, H2.
Qed.

Lemma zero_entropy_length : mem (len (List.repeat x00 16)) [16; 20; 24; 28; 32] = true.
Proof. vm_compute. reflexivity. Qed.

Lemma entropy_to_mnemonic_injective_witness :
  List.repeat x00 16 = List.repeat x00 16.
Proof.
  apply (entropy_to_mnemonic_injective example_wordlist
           (List.repeat x00 16) (List.repeat x00 16)
           (join (lit " ") (spec_words example_wordlist (List.repeat x00 16)))
           example_wordlist_ok);
    exact (entropy_to_mnemonic_refines example_wordlist example_wordlist_ok
             (List.repeat x00 16) zero_entropy_length).
Defined.

(** X3.  The encoder raises [ValueError] exactly on entropy whose length
    is not 16, 20, 24, 28 or 32 octets (the empty entropy included), and
    with a sound word list it returns a mnemonic on every other input: no
    index ever falls outside the word list. *)
Theorem entropy_to_mnemonic_errors (wordlist : list str) (entropy : bytes) :
  wordlist_ok wordlist = true ->
  (~ In (len entropy) [16; 20; 24; 28; 32] ->
   _entropy_to_mnemonic wordlist entropy = Raise ValueError)
  /\ (In (len entropy) [16; 20; 24; 28; 32] ->
      exists m : str, _entropy_to_mnemonic wordlist entropy = Ok m)
  /\ (forall e : exn,
        _entropy_to_mnemonic wordlist entropy = Raise e ->
        e = ValueError /\ ~ In (len entropy) [16; 20; 24; 28; 32]).
Proof.
  intros Hwl.
  assert (Hbad : ~ In (len entropy) [16; 20; 24; 28; 32] ->
                 _entropy_to_mnemonic wordlist entropy = Raise ValueError).
  { intros Hn. unfold _entropy_to_mnemonic.
    destruct (mem (len entropy) [16; 20; 24; 28; 32]) eqn:E; [| reflexivity].
    apply mem_In in E. contradiction. }
  assert (Hgood : In (len entropy) [16; 20; 24; 28; 32] ->
                  exists m : str, _entropy_to_mnemonic wordlist entropy = Ok m).
  { intros Hin. eexists.
    apply (entropy_to_mnemonic_refines wordlist Hwl). now apply mem_In. }
  refine (conj Hbad (conj Hgood _)).
  intros e He.
  destruct (mem (len entropy) [16; 20; 24; 28; 32]) eqn:E.
  - apply mem_In in E. destruct (Hgood E) as [m Hm]. congruence.
  - assert (Hn : ~ In (len entropy) [16; 20; 24; 28; 32])
      by (intros Hin; apply mem_In in Hin; congruence).
    rewrite (Hbad Hn) in He. injection He as <-. now split.
Qed.

Lemma entropy_to_mnemonic_errors_witness :
  _entropy_to_mnemonic example_wordlist [] = Raise ValueError.
Proof.
  apply (proj1 (entropy_to_mnemonic_errors example_wordlist [] example_wordlist_ok)).
  vm_compute. intuition discriminate.
Defined.

(** X4.  [generate_mnemonic] asks the random source for [strength / 8]
    octets, once, and encodes what it gets; for a strength other than
    128, 160, 192, 224 or 256 it raises [ValueError] before drawing
    anything, so the random source is left as it was. *)
Theorem generate_mnemonic_draw
    (wordlist : list str) (R : Secrets) (st : pool R) (strength : Z) :
  (~ In strength [128; 160; 192; 224; 256] ->
   generate_mnemonic wordlist R strength st = (Raise ValueError, st))
  /\ (In strength [128; 160; 192; 224; 256] ->
      generate_mnemonic wordlist R strength st
      = (_entropy_to_mnemonic wordlist (fst (token_bytes R (strength / 8) st)),
         snd (token_bytes R (strength / 8) st))
      /\ len (fst (token_bytes R (strength / 8) st)) * 8 = strength).
Proof.
  unfold generate_mnemonic. split; intros H.
  - destruct (mem strength [128; 160; 192; 224; 256]) eqn:E; [| reflexivity].
    apply mem_In in E. contradiction.
  - rewrite (proj2 (mem_In _ _) H). cbn [negb].
    split; [now destruct (token_bytes R (strength / 8) st) |].
    rewrite token_bytes_len by (apply Z.div_pos; cbn [In] in H; lia).
    cbn [In] in H.
    destruct H as [H | [H | [H | [H | [H | []]]]]]; subst strength; reflexivity.
Qed.

(** ** The dictionary of [__init__] *)

Lemma dict_build_last (pairs : list (Z * str)) (k : str) :
  forall d : dict Z,
    dict_get (dict_build pairs d) k
    = match last_binding pairs k with
      | Some v => Ok v
      | None => dict_get d k
      end.
Proof.
  induction pairs as [| [i k'] pairs IH]; intros d; [reflexivity |].
  change (dict_build ((i, k') :: pairs) d)
    with (dict_build pairs (dict_set d k' i)).
  rewrite IH. cbn [last_binding].
  destruct (last_binding pairs k); [reflexivity |].
  rewrite dict_get_set. now destruct (str_eqb k' k).
Qed.

Lemma last_binding_enumerate (l : list str) (w : str) :
  forall a : nat,
    match last_binding
            (combine (List.map Z.of_nat (seq a (List.length l))) l) w with
    | Some i =>
        exists n : nat,
          i = Z.of_nat (a + n) /\ nth_error l n = Some w /\
          forall m : nat, (n < m)%nat -> nth_error l m <> Some w
    | None => ~ In w l
    end.
Proof.
  induction l as [| x l IH]; intros a.
  - cbn. tauto.
  - cbn [List.length seq List.map combine last_binding].
    specialize (IH (S a)).
    destruct (last_binding
                (combine (List.map Z.of_nat (seq (S a) (List.length l))) l) w)
      as [i |].
    + destruct IH as (n & -> & Hn & Hlast). exists (S n).
      split; [f_equal; lia |]. split; [assumption |].
      intros m Hm. destruct m as [| m]; [lia |]. apply Hlast. lia.
    + destruct (str_eqb x w) eqn:E.
      * apply str_eqb_eq in E. subst x. exists 0%nat.
        split; [f_equal; lia |]. split; [reflexivity |].
        intros m Hm. destruct m as [| m]; [lia |]. cbn [nth_error].
        intros Hin. apply IH. eapply nth_error_In. eassumption.
      * apply str_eqb_neq in E. intros [-> | Hin]; [now apply E | now apply IH].
Qed.

(** X5.  The dictionary built by [__init__] maps a word to a position
    where the word list holds it, and when the word occurs several times,
    to the last such position; a word that is not in the list raises
    [KeyError].  This holds for any word list, also one with
    duplicates. *)
Theorem wordlist_dict_last_index (wordlist : list str) (w : str) :
  (forall i : Z,
     dict_get (wordlist_dict wordlist) w = Ok i ->
     0 <= i < len wordlist
     /\ nth_error wordlist (Z.to_nat i) = Some w
     /\ forall j : nat, (Z.to_nat i < j)%nat -> nth_error wordlist j <> Some w)
  /\ (In w wordlist -> exists i : Z, dict_get (wordlist_dict wordlist) w = Ok i)
  /\ (~ In w wordlist -> dict_get (wordlist_dict wordlist) w = Raise KeyError).
Proof.
  change (wordlist_dict wordlist) with (dict_build (enumerate wordlist) []).
  rewrite dict_build_last.
  pose proof (last_binding_enumerate wordlist w 0) as H.
  fold (enumerate wordlist) in H.
  destruct (last_binding (enumerate wordlist) w) as [i |].
  - destruct H as (n & -> & Hn & Hlast). refine (conj _ (conj _ _)).
    + intros i E. injection E as <-. cbn [Nat.add]. rewrite Nat2Z.id.
      assert (n < List.length wordlist)%nat
        by (apply nth_error_Some; congruence).
      unfold len. repeat split; [lia | lia | assumption | assumption].
    + intros _. eauto.
    + intros Hn'. exfalso. apply Hn'. eapply nth_error_In. eassumption.
  - refine (conj _ (conj _ _)).
    + intros i E. discriminate E.
    + intros Hin. contradiction.
    + reflexivity.
Qed.

(** ** Loading the word list *)

Lemma lstrip_idem (s : str) : lstrip (lstrip s) = lstrip s.
Proof.
  induction s as [| c s IH]; [reflexivity |].
  cbn [lstrip]. destruct (isspace c) eqn:E; [assumption |].
  cbn [lstrip]. now rewrite E.
Qed.

Lemma lstrip_snoc (a : str) (c : N) :
  isspace c = false -> lstrip (a ++ [c]) = lstrip a ++ [c].
Proof.
  intros Hc. induction a as [| x a IH].
  - cbn. now rewrite Hc.
  - cbn [app lstrip]. destruct (isspace x); [assumption | reflexivity].
Qed.

Lemma rstrip_cons (c : N) (t : str) :
  isspace c = false -> rstrip (c :: t) = c :: rstrip t.
Proof.
  intros Hc. unfold rstrip. cbn [rev].
  rewrite lstrip_snoc by assumption.
  rewrite rev_app_distr. reflexivity.
Qed.

Lemma rstrip_idem (s : str) : rstrip (rstrip s) = rstrip s.
Proof. unfold rstrip. now rewrite rev_involutive, lstrip_idem. Qed.

Lemma lstrip_head (s : str) :
  lstrip s = [] \/ exists c t, lstrip s = c :: t /\ isspace c = false.
Proof.
  induction s as [| c s IH]; [now left |].
  cbn [lstrip]. destruct (isspace c) eqn:E; [assumption |].
  right. eauto.
Qed.

(** Stripping twice is stripping once. *)
Lemma strip_idem (s : str) : strip (strip s) = strip s.
Proof.
  unfold strip. destruct (lstrip_head s) as [E | (c & t & E & Hc)].
  - rewrite E. reflexivity.
  - rewrite E. rewrite rstrip_cons by assumption.
    cbn [lstrip]. rewrite Hc. rewrite rstrip_cons by assumption.
    now rewrite rstrip_idem.
Qed.

Lemma lstrip_nil (s : str) : lstrip s = [] <-> forallb isspace s = true.
Proof.
  induction s as [| c s IH]; [cbn; tauto |].
  cbn [lstrip forallb]. destruct (isspace c); cbn [andb]; [assumption |].
  split; discriminate.
Qed.

(** Only text made of whitespace strips to nothing. *)
Lemma strip_nil (s : str) : strip s = [] <-> forallb isspace s = true.
Proof.
  rewrite <- lstrip_nil. unfold strip.
  destruct (lstrip_head s) as [E | (c & t & E & Hc)].
  - rewrite E. cbn. tauto.
  - rewrite E, rstrip_cons by assumption. split; discriminate.
Qed.

(** X6.  [_load_wordlist] keeps the lines that are not blank, in order,
    each stripped of the whitespace around it, and succeeds exactly when
    2048 of them remain; otherwise it raises [ValueError].  A loaded list
    has 2048 entries, none empty, none with whitespace at either end. *)
Theorem load_wordlist_spec (lines : list str) :
  let words :=
    List.map strip (filter (fun line => negb (forallb isspace line)) lines) in
  (List.length words = 2048%nat -> _load_wordlist lines = Ok words)
  /\ (List.length words <> 2048%nat -> _load_wordlist lines = Raise ValueError)
  /\ (forall wl : list str,
        _load_wordlist lines = Ok wl ->
        wl = words
        /\ List.length wl = 2048%nat
        /\ Forall (fun w => w <> [] /\ strip w = w) wl).
Proof.
  intros words.
  assert (Ef : filter (fun line => negb (str_eqb (strip line) [])) lines
               = filter (fun line => negb (forallb isspace line)) lines).
  { apply filter_ext. intros line. f_equal.
    destruct (forallb isspace line) eqn:E.
    - apply strip_nil in E. rewrite E. reflexivity.
    - apply str_eqb_neq. intros H. apply strip_nil in H. congruence. }
  unfold _load_wordlist. rewrite Ef. fold words.
  assert (Hw : Forall (fun w => w <> [] /\ strip w = w) words).
  { unfold words. apply Forall_map, Forall_forall. intros line Hl.
    apply filter_In in Hl. destruct Hl as [_ Hl]. apply negb_true_iff in Hl.
    split; [| apply strip_idem].
    intros E. apply strip_nil in E. congruence. }
  unfold len. refine (conj _ (conj _ _)).
  - intros H. rewrite H. reflexivity.
  - intros H. destruct (Z.of_nat (List.length words) =? 2048) eqn:E;
      [apply Z.eqb_eq in E; lia | reflexivity].
  - intros wl H.
    destruct (Z.of_nat (List.length words) =? 2048) eqn:E; [| discriminate H].
    cbn [negb] in H. injection H as <-. apply Z.eqb_eq in E.
    repeat split; [lia | assumption].
Qed.

(** ** Errors of [mnemonic_to_seed] *)

Lemma utf8_char_scalar (c : N) :
  if is_scalar c then exists b : bytes, utf8_char c = Ok b
  else utf8_char c = Raise UnicodeEncodeError.
Proof.
  unfold is_scalar, utf8_char.
  destruct (c <? 128)%N eqn:E1; destruct (c <? 2048)%N eqn:E2;
    destruct (c <? 55296)%N eqn:E3; destruct (57343 <? c)%N eqn:E4;
    destruct (c <? 65536)%N eqn:E5; destruct (c <? 1114112)%N eqn:E6;
    destruct (55296 <=? c)%N eqn:E7; destruct (c <=? 57343)%N eqn:E8;
    cbn [orb andb]; eauto;
    repeat match goal with
           | H : (_ <? _)%N = true |- _ => apply N.ltb_lt in H
           | H : (_ <? _)%N = false |- _ => apply N.ltb_ge in H
           | H : (_ <=? _)%N = true |- _ => apply N.leb_le in H
           | H : (_ <=? _)%N = false |- _ => apply N.leb_gt in H
           end; lia.
Qed.

Lemma encode_utf8_scalar (s : str) :
  if forallb is_scalar s then exists b : bytes, encode_utf8 s = Ok b
  else encode_utf8 s = Raise UnicodeEncodeError.
Proof.
  unfold encode_utf8. induction s as [| c s IH]; [cbn; eauto |].
  cbn [forallb traverse]. pose proof (utf8_char_scalar c) as Hc.
  destruct (is_scalar c); cbn [andb].
  - destruct Hc as [b ->]. cbn [bind].
    destruct (forallb is_scalar s).
    + destruct IH as [bs IH].
      destruct (traverse utf8_char s) as [chunks | e]; [| discriminate IH].
      cbn [bind]. eauto.
    + destruct (traverse utf8_char s) as [chunks | e]; [discriminate IH |].
      cbn [bind] in *. exact IH.
  - rewrite Hc. reflexivity.
Qed.

(** X7.  [mnemonic_to_seed] returns a seed, of 64 octets, exactly when the
    mnemonic and the passphrase hold no surrogate code point; otherwise
    the UTF-8 encoding fails and it raises [UnicodeEncodeError], the only
    exception it can raise. *)
Theorem mnemonic_to_seed_errors (mnemonic passphrase : str) :
  (forallb is_scalar (mnemonic ++ passphrase) = true ->
   exists seed : bytes,
     mnemonic_to_seed mnemonic passphrase = Ok seed
     /\ List.length seed = 64%nat)
  /\ (forallb is_scalar (mnemonic ++ passphrase) = false ->
      mnemonic_to_seed mnemonic passphrase = Raise UnicodeEncodeError)
  /\ (forall e : exn,
        mnemonic_to_seed mnemonic passphrase = Raise e ->
        e = UnicodeEncodeError).
Proof.
  rewrite forallb_app.
  pose proof (encode_utf8_scalar mnemonic) as Hm.
  pose proof (encode_utf8_scalar passphrase) as Hp.
  assert (Hgood : forallb is_scalar mnemonic && forallb is_scalar passphrase = true ->
                  exists seed : bytes,
                    mnemonic_to_seed mnemonic passphrase = Ok seed
                    /\ List.length seed = 64%nat).
  { intros H. apply andb_true_iff in H. destruct H as [H1 H2].
    rewrite H1 in Hm. rewrite H2 in Hp.
    destruct Hm as [bm Hm]. destruct Hp as [bp Hp].
    rewrite (mnemonic_to_seed_encoded _ _ _ _ Hm Hp).
    eexists. split; [reflexivity | apply pbkdf2_hmac_sha512_length]. }
  assert (Hbad : forallb is_scalar mnemonic && forallb is_scalar passphrase = false ->
                 mnemonic_to_seed mnemonic passphrase = Raise UnicodeEncodeError).
  { intros H. unfold mnemonic_to_seed.
    destruct (forallb is_scalar mnemonic) eqn:H1.
    - destruct Hm as [bm ->]. cbn [bind].
      cbn [andb] in H. rewrite H in Hp.
      pose proof (encode_utf8_scalar (lit "mnemonic" ++ passphrase)) as Hs.
      rewrite forallb_app, H, andb_false_r in Hs. rewrite Hs. reflexivity.
    - rewrite Hm. reflexivity. }
  refine (conj Hgood (conj Hbad _)).
  intros e He.
  destruct (forallb is_scalar mnemonic && forallb is_scalar passphrase) eqn:E.
  - destruct (Hgood eq_refl) as (seed & Hs & _). congruence.
  - rewrite (Hbad eq_refl) in He. now injection He as <-.
Qed.

(** ** The validator record *)

Lemma b64encode_length_le (n : nat) :
  forall b : bytes,
    (List.length b <= n)%nat ->
    List.length (b64encode b) = (4 * ((List.length b + 2) / 3))%nat.
Proof.
  induction n as [| n IH]; intros b Hb.
  - destruct b; [reflexivity | cbn in Hb; lia].
  - destruct b as [| x [| y [| z rest]]]; try reflexivity.
    cbn [b64encode List.length] in *. rewrite IH by lia.
    replace (S (S (S (List.length rest))) + 2)%nat
      with (List.length rest + 2 + 1 * 3)%nat by lia.
    rewrite Nat.div_add by lia. lia.
Qed.

(** Base64 text is four characters for every three octets, the last
    group padded. *)
Lemma b64encode_length (b : bytes) :
  List.length (b64encode b) = (4 * ((List.length b + 2) / 3))%nat.
Proof. now apply (b64encode_length_le (List.length b)). Qed.

Lemma is_base64_spec (c : N) :
  (65 <= c <= 90 \/ 97 <= c <= 122 \/ 48 <= c <= 57
   \/ c = 43 \/ c = 47 \/ c = 61)%N ->
  is_base64 c = true.
Proof.
  unfold is_base64.
  rewrite !orb_true_iff, !andb_true_iff, !N.leb_le, !N.eqb_eq. lia.
Qed.

Lemma b64_char_ok (n : N) :
  (n < 64)%N -> is_base64 (Byte.to_N (b64_char n)) = true.
Proof.
  intros Hn. unfold b64_char.
  destruct (n <? 26)%N eqn:E1; [apply N.ltb_lt in E1 | apply N.ltb_ge in E1].
  { rewrite to_N_byte_of_N by lia. apply is_base64_spec. lia. }
  destruct (n <? 52)%N eqn:E2; [apply N.ltb_lt in E2 | apply N.ltb_ge in E2].
  { rewrite to_N_byte_of_N by lia. apply is_base64_spec. lia. }
  destruct (n <? 62)%N eqn:E3; [apply N.ltb_lt in E3 | apply N.ltb_ge in E3].
  { rewrite to_N_byte_of_N by lia. apply is_base64_spec. lia. }
  destruct (n =? 62)%N; reflexivity.
Qed.

Lemma b64encode_alphabet_le (n : nat) :
  forall b : bytes,
    (List.length b <= n)%nat ->
    forallb is_base64 (decode_ascii (b64encode b)) = true.
Proof.
  assert (Hpad : is_base64 (Byte.to_N b64_pad) = true) by reflexivity.
  induction n as [| n IH]; intros b Hb.
  - destruct b; [reflexivity | cbn in Hb; lia].
  - destruct b as [| x [| y [| z rest]]]; [reflexivity | | |].
    + pose proof (Byte.to_N_bounded x).
      cbn [b64encode decode_ascii List.map forallb].
      rewrite !b64_char_ok, Hpad; [reflexivity | |].
      * apply N.mod_lt. lia.
      * apply N.Div0.div_lt_upper_bound; lia.
    + pose proof (Byte.to_N_bounded x). pose proof (Byte.to_N_bounded y).
      cbn [b64encode decode_ascii List.map forallb].
      rewrite !b64_char_ok, Hpad; [reflexivity | | |].
      * apply N.mod_lt. lia.
      * apply N.mod_lt. lia.
      * apply N.Div0.div_lt_upper_bound; lia.
    + pose proof (Byte.to_N_bounded x). pose proof (Byte.to_N_bounded y).
      pose proof (Byte.to_N_bounded z).
      cbn [b64encode decode_ascii List.map forallb List.length] in *.
      fold (decode_ascii (b64encode rest)).
      rewrite !b64_char_ok, IH; [reflexivity | lia | | | |].
      * apply N.mod_lt. lia.
      * apply N.mod_lt. lia.
      * apply N.mod_lt. lia.
      * apply N.Div0.div_lt_upper_bound; lia.
Qed.

Lemma b64encode_alphabet (b : bytes) :
  forallb is_base64 (decode_ascii (b64encode b)) = true.
Proof. now apply (b64encode_alphabet_le (List.length b)). Qed.

Lemma b64_text_length (b : bytes) :
  len (decode_ascii (b64encode b)) = 4 * ((len b + 2) / 3).
Proof.
  unfold len, decode_ascii. rewrite length_map, b64encode_length.
  rewrite Nat2Z.inj_mul, Nat2Z.inj_div, Nat2Z.inj_add. reflexivity.
Qed.

(** X8.  [create_priv_validator_key] never fails.  The address of the
    record is computed from the public key alone; the two type tags are
    the fixed Tendermint ones; each value is base64 text of
    [4 * ceil(n / 3)] characters for a key of [n] octets, hence 44
    characters for a 32-octet public key and 88 for a 64-octet private
    key. *)
Theorem create_priv_validator_key_shape (private_key public_key : bytes) :
  exists r : ValidatorRecord,
    create_priv_validator_key private_key public_key = Ok r
    /\ address r = spec_address public_key
    /\ len (address r) = 40
    /\ type (pub_key r) = lit "tendermint/PubKeyEd25519"
    /\ type (priv_key r) = lit "tendermint/PrivKeyEd25519"
    /\ len (value (pub_key r)) = 4 * ((len public_key + 2) / 3)
    /\ len (value (priv_key r)) = 4 * ((len private_key + 2) / 3)
    /\ forallb is_base64 (value (pub_key r)) = true
    /\ forallb is_base64 (value (priv_key r)) = true
    /\ (len public_key = 32 -> len (value (pub_key r)) = 44)
    /\ (len private_key = 64 -> len (value (priv_key r)) = 88).
Proof.
  unfold create_priv_validator_key. rewrite generate_address_value.
  cbn [bind]. eexists. split; [reflexivity |].
  cbn [address pub_key priv_key type value].
  refine (conj eq_refl (conj _ (conj eq_refl (conj eq_refl
           (conj (b64_text_length _) (conj (b64_text_length _)
           (conj (b64encode_alphabet _) (conj (b64encode_alphabet _)
           (conj _ _))))))))).
  - unfold len. now rewrite spec_address_length.
  - intros H. rewrite b64_text_length, H. reflexivity.
  - intros H. rewrite b64_text_length, H. reflexivity.
Qed.

(** ** The actor script *)

Lemma hex_length (b : bytes) : List.length (hex b) = (2 * List.length b)%nat.
Proof.
  unfold hex. induction b as [| x b IH]; [reflexivity |].
  cbn [flat_map List.length app]. rewrite IH. lia.
Qed.

Lemma hex_lower (b : bytes) : forallb is_lower_hex (hex b) = true.
Proof.
  unfold hex. induction b as [| x b IH]; [reflexivity |].
  cbn [flat_map]. rewrite forallb_app, IH, andb_true_r.
  destruct x; reflexivity.
Qed.

Lemma forallb_firstn {A : Type} (f : A -> bool) (n : nat) (l : list A) :
  forallb f l = true -> forallb f (firstn n l) = true.
Proof.
  revert n. induction l as [| x l IH]; intros n H; [now destruct n |].
  destruct n as [| n]; [reflexivity |].
  cbn [firstn forallb] in *. apply andb_true_iff in H. destruct H as [-> H].
  now rewrite IH.
Qed.

Lemma str_repeat_char (c : N) (n : Z) :
  str_repeat [c] n = List.repeat c (Z.to_nat n).
Proof.
  unfold str_repeat. induction (Z.to_nat n) as [| k IH]; [reflexivity |].
  cbn [List.repeat List.concat app]. now rewrite IH.
Qed.

(** X9.  [generate_cosmos_address] returns 51 characters: the prefix
    [pokerchain1] and 40 lower-case hexadecimal digits; it raises
    [UnicodeEncodeError] when the name or the phrase holds a surrogate.
    The name and the phrase enter the digest glued together, so two pairs
    with the same concatenation get the same address. *)
Theorem generate_cosmos_address_format (seed_phrase name : str) :
  (forallb is_scalar (name ++ seed_phrase) = true ->
   exists addr : str,
     generate_cosmos_address seed_phrase name = Ok addr
     /\ len addr = 51
     /\ firstn 11 addr = lit "pokerchain1"
     /\ forallb is_lower_hex (skipn 11 addr) = true)
  /\ (forallb is_scalar (name ++ seed_phrase) = false ->
      generate_cosmos_address seed_phrase name = Raise UnicodeEncodeError)
  /\ (forall seed_phrase' name' : str,
        name' ++ seed_phrase' = name ++ seed_phrase ->
        generate_cosmos_address seed_phrase' name'
        = generate_cosmos_address seed_phrase name).
Proof.
  unfold generate_cosmos_address.
  pose proof (encode_utf8_scalar (name ++ seed_phrase)) as He.
  refine (conj _ (conj _ _)).
  - intros H. rewrite H in He. destruct He as [data ->]. cbn [bind].
    rewrite slice_to by lia. eexists. split; [reflexivity |].
    assert (Hl : List.length (firstn (Z.to_nat 40) (hex (Hash.sha256 data))) = 40%nat)
      by (rewrite length_firstn, hex_length, sha256_length; reflexivity).
    refine (conj _ (conj _ _)).
    + unfold len. rewrite length_app, Hl. reflexivity.
    + change 11%nat with (List.length (lit "pokerchain1")).
      apply firstn_exact.
    + change 11%nat with (List.length (lit "pokerchain1")).
      rewrite skipn_exact. apply forallb_firstn, hex_lower.
  - intros H. rewrite H in He. now rewrite He.
  - intros seed_phrase' name' E. now rewrite E.
Qed.

(** X10.  The address the actor script writes is the prefix
    [pokerchain1] and the name padded with zeros to 39 characters: 50
    characters in all for a name of at most 39.  A longer name is not cut:
    the count of zeros is then negative and gives no zero, and the
    address is longer than 50.  In no case has it the 51 characters of an
    address made by [generate_cosmos_address] from a name that short. *)
Theorem placeholder_address_length (name : str) :
  len (placeholder_address name) = 11 + Z.max 39 (len name)
  /\ (len name <= 39 ->
      placeholder_address name
      = lit "pokerchain1" ++ name ++ List.repeat 48%N (Z.to_nat (39 - len name))
      /\ len (placeholder_address name) = 50)
  /\ (39 < len name -> placeholder_address name = lit "pokerchain1" ++ name)
  /\ (forall seed_phrase addr : str,
        len name <= 39 ->
        generate_cosmos_address seed_phrase name = Ok addr ->
        addr <> placeholder_address name).
Proof.
  unfold placeholder_address.
  change (lit "0") with [48%N]. rewrite str_repeat_char.
  assert (Hlen : len (lit "pokerchain1" ++ name
                        ++ List.repeat 48%N (Z.to_nat (39 - len name)))
                 = 11 + Z.max 39 (len name)).
  { rewrite !len_app. unfold len at 3. rewrite repeat_length.
    change (len (lit "pokerchain1")) with 11.
    pose proof (len_nonneg name). lia. }
  refine (conj Hlen (conj _ (conj _ _))).
  - intros H. split; [reflexivity |]. rewrite Hlen. lia.
  - intros H. replace (Z.to_nat (39 - len name)) with 0%nat by lia.
    cbn [List.repeat]. now rewrite app_nil_r.
  - intros seed_phrase addr H Ha E.
    destruct (forallb is_scalar (name ++ seed_phrase)) eqn:Hs.
    + destruct (proj1 (generate_cosmos_address_format seed_phrase name) Hs)
        as (addr' & Ha' & Hl' & _).
      rewrite Ha in Ha'. injection Ha' as <-.
      rewrite E, Hlen in Hl'. lia.
    + rewrite (proj1 (proj2 (generate_cosmos_address_format seed_phrase name)) Hs)
        in Ha.
      discriminate Ha.
Qed.

(** ** The checksum pins down the last word *)

Lemma be_bits_inj (w : nat) (x y : Z) :
  0 <= x < 2 ^ Z.of_nat w -> 0 <= y < 2 ^ Z.of_nat w ->
  be_bits w x = be_bits w y -> x = y.
Proof.
  intros Hx Hy E. rewrite <- (bits_value_be_bits w x Hx).
  rewrite <- (bits_value_be_bits w y Hy). now rewrite E.
Qed.

(** The eleven bits of an index: its high part, then its [k] low bits. *)
Lemma be_bits_split (k : nat) (i : Z) :
  (k <= 11)%nat ->
  be_bits 11 i
  = be_bits (11 - k) (i / 2 ^ Z.of_nat k) ++ be_bits k (i mod 2 ^ Z.of_nat k).
Proof.
  intros Hk.
  assert (Hp : 0 < 2 ^ Z.of_nat k) by (apply Z.pow_pos_nonneg; lia).
  replace 11%nat with (11 - k + k)%nat at 1 by lia.
  rewrite (Z.div_mod i (2 ^ Z.of_nat k)) at 1 by lia.
  rewrite (Z.mul_comm (2 ^ Z.of_nat k)).
  apply be_bits_app. apply Z.mod_pos_bound. lia.
Qed.

Section LastWord.

Variable wordlist : list str.
Hypothesis wordlist_good : wordlist_ok wordlist = true.

(** The entropy bits and the checksum bits of a checked mnemonic whose
    last word has index [i]. *)
Lemma spec_validate_last (mnemonic : str) (init : list str) (w : str) (i : Z) :
  split mnemonic = init ++ [w] ->
  index_of wordlist w = Some i ->
  spec_validate wordlist mnemonic = true ->
  exists (k : nat) (idx : list Z),
    List.length (init ++ [w]) = (3 * k)%nat /\ (4 <= k <= 8)%nat
    /\ all_some (List.map (index_of wordlist) init) = Some idx
    /\ be_bits k (i mod 2 ^ Z.of_nat k)
       = firstn k
           (bytes_bits
              (Hash.sha256
                 (bits_bytes (flat_map (be_bits 11) idx
                                ++ be_bits (11 - k) (i / 2 ^ Z.of_nat k))))).
Proof.
  intros Hs Hw. unfold spec_validate. cbv zeta. rewrite Hs.
  destruct (existsb (Nat.eqb (List.length (init ++ [w]))) [12; 15; 18; 21; 24]%nat)
    eqn:Hn; [| discriminate].
  cbn [negb]. destruct (word_count_cases _ Hn) as (k & Hk & Hk').
  rewrite map_app. cbn [List.map]. rewrite Hw.
  destruct (all_some (List.map (index_of wordlist) init)) as [idx |] eqn:Hi.
  2:{ intros H. exfalso. revert H.
      assert (E : all_some (List.map (index_of wordlist) init ++ [Some i]) = None).
      { clear - Hi. induction (List.map (index_of wordlist) init) as [| o l IH];
          [discriminate |].
        cbn [all_some app] in *. destruct o; [| reflexivity].
        destruct (all_some l); [discriminate | now rewrite IH]. }
      rewrite E. discriminate. }
  assert (E : all_some (List.map (index_of wordlist) init ++ [Some i])
              = Some (idx ++ [i])).
  { clear - Hi. revert idx Hi.
    induction (List.map (index_of wordlist) init) as [| o l IH]; intros idx Hi.
    - injection Hi as <-. reflexivity.
    - cbn [all_some app] in *. destruct o as [x |]; [| discriminate].
      destruct (all_some l) as [r |]; [| discriminate].
      injection Hi as <-. now rewrite (IH r eq_refl). }
  rewrite E. clear E.
  assert (Hl : List.length idx = (3 * k - 1)%nat).
  { apply all_some_Forall2 in Hi. apply Forall2_length in Hi.
    rewrite length_app in Hk. cbn [List.length] in Hk. lia. }
  rewrite flat_map_app. cbn [flat_map]. rewrite app_nil_r.
  set (front := flat_map (be_bits 11) idx).
  assert (Hf : List.length front = ((3 * k - 1) * 11)%nat)
    by (unfold front; now rewrite flat_map_be_bits_length, Hl).
  rewrite Hk.
  replace (3 * k / 3)%nat with k by (apply Nat.div_unique with 0%nat; lia).
  rewrite (be_bits_split k i) by lia.
  rewrite app_assoc.
  set (ebits := front ++ be_bits (11 - k) (i / 2 ^ Z.of_nat k)).
  assert (He : List.length ebits = (4 * k * 8)%nat)
    by (unfold ebits; rewrite length_app, be_bits_length; lia).
  rewrite length_app, be_bits_length, He.
  replace (4 * k * 8 + k - k)%nat with (List.length ebits) by lia.
  rewrite firstn_exact, skipn_exact.
  intros Hc. apply bits_eqb_eq in Hc.
  exists k, idx. refine (conj _ (conj Hk' (conj _ Hc))); reflexivity.
Qed.

End LastWord.

(** X11.  The checksum detects a wrong last word: if two mnemonics have
    the same words except possibly the last, the indices of their last
    words agree above the [wordCount / 3] checksum bits, and the first is
    accepted, then the second is accepted only if its last word is the
    same.  Replacing the last word of a valid mnemonic by one that differs
    from it only in checksum bits is therefore rejected. *)
Theorem checksum_fixes_last_word
    (wordlist : list str) (m1 m2 : str) (init : list str) (w1 w2 : str) (i1 i2 : Z) :
  wordlist_ok wordlist = true ->
  split m1 = init ++ [w1] ->
  split m2 = init ++ [w2] ->
  nth_error wordlist (Z.to_nat i1) = Some w1 -> 0 <= i1 ->
  nth_error wordlist (Z.to_nat i2) = Some w2 -> 0 <= i2 ->
  i1 / 2 ^ (len (init ++ [w1]) / 3) = i2 / 2 ^ (len (init ++ [w1]) / 3) ->
  validate_mnemonic wordlist m1 = Ok true ->
  (validate_mnemonic wordlist m2 = Ok true <-> w1 = w2).
Proof.
  intros Hwl Hs1 Hs2 Hn1 Hp1 Hn2 Hp2 Hdiv Hv1.
  split.
  2:{ intros <-. rewrite <- Hv1. apply validate_mnemonic_tokens. congruence. }
  intros Hv2.
  rewrite (validate_mnemonic_refines wordlist Hwl) in Hv1, Hv2.
  injection Hv1 as Hv1. injection Hv2 as Hv2.
  assert (Hi1 : index_of wordlist w1 = Some i1).
  { rewrite <- (Z2Nat.id i1) by assumption. now apply index_of_nth. }
  assert (Hi2 : index_of wordlist w2 = Some i2).
  { rewrite <- (Z2Nat.id i2) by assumption. now apply index_of_nth. }
  destruct (spec_validate_last wordlist m1 init w1 i1 Hs1 Hi1 Hv1)
    as (k & idx & Hk & Hk' & Hf & Hc1).
  destruct (spec_validate_last wordlist m2 init w2 i2 Hs2 Hi2 Hv2)
    as (k2 & idx2 & Hk2 & Hk2' & Hf2 & Hc2).
  assert (k2 = k) by (rewrite !length_app in *; cbn [List.length] in *; lia).
  subst k2. rewrite Hf in Hf2. injection Hf2 as <-.
  assert (Hlen : len (init ++ [w1]) / 3 = Z.of_nat k).
  { unfold len. rewrite Hk. symmetry. apply Z.div_unique with 0; lia. }
  rewrite Hlen in Hdiv.
  rewrite <- Hdiv in Hc2. rewrite <- Hc2 in Hc1.
  assert (Hp : 0 < 2 ^ Z.of_nat k) by (apply Z.pow_pos_nonneg; lia).
  apply be_bits_inj in Hc1; try (apply Z.mod_pos_bound; lia).
  assert (i1 = i2).
  { rewrite (Z.div_mod i1 (2 ^ Z.of_nat k)), (Z.div_mod i2 (2 ^ Z.of_nat k)) by lia.
    now rewrite Hdiv, Hc1. }
  subst i2. congruence.
Qed.

Lemma checksum_fixes_last_word_witness :
  validate_mnemonic example_wordlist
    (lit "abandon abandon abandon abandon abandon abandon abandon abandon abandon abandon abandon w10")
  = Ok true
  <-> lit "about" = lit "w10".
Proof.
  apply (checksum_fixes_last_word example_wordlist abandon_about
           (lit "abandon abandon abandon abandon abandon abandon abandon abandon abandon abandon abandon w10")
           (List.repeat (lit "abandon") 11) (lit "about") (lit "w10") 3 2).
  - exact example_wordlist_ok.
  - vm_compute. reflexivity.
  - vm_compute. reflexivity.
  - vm_compute. reflexivity.
  - lia.
  - vm_compute. reflexivity.
  - lia.
  - vm_compute. reflexivity.
  - exact (abandon_about_valid example_wordlist example_wordlist_ok
             (proj1 example_words_0_3) (proj2 example_words_0_3)).
Defined.


(** ** [main] *)

















(** X14.  What [main] does before any key work.  With fewer than two
    entries in [sys.argv] it prints the usage text and exits with status
    1 without looking for the word list.  Otherwise, when [bip39.txt] is
    neither in the current directory nor beside the script, it prints one
    [Error:] line on the error stream and exits with status 1.  A file in
    the current directory hides the one beside the script; when the file
    found has not exactly 2048 non-blank lines, [ValueError] leaves
    [main] uncaught, as only [FileNotFoundError] is handled.  In all
    these runs nothing is printed on the output stream after the usage
    text, nothing is written and the random source is not used. *)
Theorem main_wordlist_failures
    (HAS_NACL : bool) (R : Secrets) (fs : Files) (argv : list str) (st : pool R) :
  let run := main HAS_NACL R fs argv st in
  ((List.length argv < 2)%nat -> run = stop usage (Exited 1) st)
  /\ ((2 <= List.length argv)%nat ->
      (in_cwd fs = None -> beside_script fs = None ->
       run = stop [(stderr, lit "Error: " ++ not_found (lit "bip39.txt"))]
               (Exited 1) st)
      /\ (forall lines : list str,
            in_cwd fs = Some lines
            \/ in_cwd fs = None /\ beside_script fs = Some lines ->
            List.length (filter (fun line => negb (forallb isspace line)) lines)
            <> 2048%nat ->
            run = stop [] (Uncaught ValueError) st)).
Proof.
  intros run. subst run. split.
  - intros H. destruct argv as [| a [| b argv]]; cbn [List.length] in H;
      [reflexivity | reflexivity | lia].
  - intros H. destruct argv as [| a [| b argv]]; cbn [List.length] in H; try lia.
    split.
    + intros H1 H2. unfold main, BIP39_init. rewrite H1, H2. reflexivity.
    + intros lines Hl Hn.
      assert (Hi : BIP39_init fs = LoadError ValueError).
      { unfold BIP39_init.
        replace (match in_cwd fs with
                 | Some lines0 => Some lines0
                 | None => beside_script fs
                 end) with (Some lines)
          by (destruct Hl as [-> | [-> ->]]; reflexivity).
        unfold _load_wordlist.
        replace (len (List.map strip
                   (filter (fun line => negb (str_eqb (strip line) [])) lines))
                 =? 2048) with false; [reflexivity |].
        symmetry. apply Z.eqb_neq. unfold len. rewrite length_map.
        intros E. apply Hn.
        rewrite (filter_ext (fun line => negb (forallb isspace line))
                            (fun line => negb (str_eqb (strip line) []))).
        - apply Nat2Z.inj. exact E.
        - intros line. f_equal.
          destruct (forallb isspace line) eqn:Es.
          + apply strip_nil in Es. now rewrite Es.
          + destruct (strip line) eqn:Et; [| reflexivity].
            apply strip_nil in Et. congruence. }
      unfold main. rewrite Hi. reflexivity.
Qed.




